(** * Byte pair encoding notebooks: a shallow embedding

    The development follows the notebooks of the series "Understanding Byte
    Pair Encoding": Part 3 (the algorithm: [get_stats], [replace_pairs] with a
    fresh integer id, the step-by-step merges) and Part 4 (nuances:
    [get_stats] restricted to counts above one, [replace_pairs] on strings,
    the merge loop, and the [categories] pattern used with [findall]).

    Python values are modelled as follows: an [int] is a [Z], a [str] used as
    a sequence of characters is the list of its code points, a [list] is a
    [list], a [dict] whose iteration order is observable is an association
    list in insertion order, and the vocabulary table is a [gmap]. *)

From Stdlib Require Import ZArith Lia Ascii String.
From stdpp Require Import base list gmap strings sorting.

Open Scope Z_scope.
Open Scope list_scope.
Open Scope nat_scope.

(** ** Outcome of running a piece of Python *)

Inductive exn := IndexError | ValueError | ConfigurationError | UnknownTokenError.

Inductive run (A : Type) :=
| Done (a : A)
| Raise (e : exn)
| OutOfFuel.
Arguments Done {A} a.
Arguments Raise {A} e.
Arguments OutOfFuel {A}.

Definition run_bind {A B} (m : run A) (k : A -> run B) : run B :=
  match m with
  | Done a => k a
  | Raise e => Raise e
  | OutOfFuel => OutOfFuel
  end.

Notation "'let*' x ':=' m 'in' k" := (run_bind m (fun x => k))
  (at level 10, x name, m at level 100, k at level 200).

(** [l[i]] for a non-negative index: [IndexError] outside the list. *)
Definition getitem {A} (l : list A) (i : nat) : run A :=
  match l !! i with
  | Some x => Done x
  | None => Raise IndexError
  end.

(** ** Python dictionaries, in insertion order *)

Section Dict.
Context {K V : Type} `{EqDecision K}.

(** [d.get(k, default)] *)
Fixpoint dict_get (d : list (K * V)) (k : K) (default : V) : V :=
  match d with
  | [] => default
  | (k', v) :: d' => if decide (k' = k) then v else dict_get d' k default
  end.

(** [d[k] = v]: an existing key keeps its position, a new key goes last. *)
Fixpoint dict_set (d : list (K * V)) (k : K) (v : V) : list (K * V) :=
  match d with
  | [] => [(k, v)]
  | (k', v') :: d' =>
      if decide (k' = k) then (k, v) :: d' else (k', v') :: dict_set d' k v
  end.
End Dict.

(** [sorted(items, key=lambda item: item[1], reverse=True)]: Python's sort is
    stable, also with [reverse=True], so items of equal count keep their
    relative order.  Any stable sort computes the same list; insertion sort
    is the one written here. *)
Fixpoint insert_desc {K} (x : K * nat) (l : list (K * nat)) : list (K * nat) :=
  match l with
  | [] => [x]
  | y :: l' => if x.2 <? y.2 then y :: insert_desc x l' else x :: y :: l'
  end.

Fixpoint sorted_desc {K} (l : list (K * nat)) : list (K * nat) :=
  match l with
  | [] => []
  | x :: l' => insert_desc x (sorted_desc l')
  end.

(** [list(sorted(set(l)))] on integers. *)
Fixpoint insert_asc (x : Z) (l : list Z) : list Z :=
  match l with
  | [] => [x]
  | y :: l' => if (x <? y)%Z then x :: l else y :: insert_asc x l'
  end.

Definition sorted_set (l : list Z) : list Z :=
  foldr insert_asc [] (remove_dups l).

(** [max(keys, key=f)]: the first key of maximal [f]; [ValueError] on an
    empty iterable. *)
Fixpoint max_from {K} (f : K -> nat) (best : K) (rest : list K) : K :=
  match rest with
  | [] => best
  | k :: rest' => if f best <? f k then max_from f k rest' else max_from f best rest'
  end.

Definition py_max {K} (keys : list K) (f : K -> nat) : run K :=
  match keys with
  | [] => Raise ValueError
  | k :: rest => Done (max_from f k rest)
  end.

(** The pairs [(chars[i], chars[i+1])] for [i in range(len(chars) - 1)]. *)
Fixpoint adjacent {A} (chars : list A) : list (A * A) :=
  match chars with
  | [] => []
  | a :: rest =>
      match rest with
      | [] => []
      | b :: _ => (a, b) :: adjacent rest
      end
  end.

(** One pass of [stats[p] = stats.get(p, 0) + 1] over a list of pairs. *)
Definition count_into {K} `{EqDecision K}
    (stats : list (K * nat)) (ps : list K) : list (K * nat) :=
  fold_left (fun st p => dict_set st p (dict_get st p 0 + 1)) ps stats.

(** How often [p] occurs in [ps]. *)
Definition occurrences {K} `{EqDecision K} (p : K) (ps : list K) : nat :=
  length (filter (fun q => q = p) ps).

(** [p] has the highest count in [ps] and, among the pairs of that count,
    is the one met first when [ps] is read from the left. *)
Definition first_of_highest_count {K} `{EqDecision K} (p : K) (ps : list K) : Prop :=
  (forall q, occurrences q ps <= occurrences p ps)
  /\ exists l1 l2, ps = l1 ++ p :: l2
       /\ forall q, q ∈ l1 -> occurrences q ps < occurrences p ps.

(** ** The scanning loop shared by both [replace_pairs]

    [while i < len(text)]: the test
    [text[i] == pair[0] and i < len(text) - 1 and text[i + 1] == pair[1]]
    is evaluated left to right with short-circuit [and]; [new] is what is
    appended on a hit. *)
Section Scan.
Context {A : Type} `{EqDecision A}.

Definition hit (text : list A) (pair : A * A) (i : nat) : run bool :=
  let* x := getitem text i in
  if bool_decide (x = pair.1) then
    if (Z.of_nat i <? Z.of_nat (length text) - 1)%Z then
      let* y := getitem text (i + 1) in
      Done (bool_decide (y = pair.2))
    else Done false
  else Done false.

Fixpoint scan (fuel : nat) (text : list A) (pair : A * A) (new : A)
    (i : nat) (new_text : list A) : run (list A) :=
  if i <? length text then
    match fuel with
    | O => OutOfFuel
    | S fuel' =>
        let* h := hit text pair i in
        if h then scan fuel' text pair new (i + 2) (new_text ++ [new])
        else
          let* x := getitem text i in
          scan fuel' text pair new (i + 1) (new_text ++ [x])
    end
  else Done new_text.

(** The same rewriting by recursion on the sequence. *)
Fixpoint rewrite_pairs (text : list A) (pair : A * A) (new : A) : list A :=
  match text with
  | [] => []
  | x :: rest =>
      match rest with
      | [] => [x]
      | y :: rest' =>
          if bool_decide (x = pair.1) && bool_decide (y = pair.2)
          then new :: rewrite_pairs rest' pair new
          else x :: rewrite_pairs rest pair new
      end
  end.
End Scan.

(** ** Part 3: the algorithm *)

Module Part3.

(** [get_stats(chars)]: all adjacent pairs with their counts, most
    frequent first. *)
Definition get_stats {A} `{EqDecision A} (chars : list A) : list ((A * A) * nat) :=
  sorted_desc (count_into [] (adjacent chars)).

(** [replace_pairs(text, pair, idx)] *)
Definition replace_pairs {A} `{EqDecision A}
    (text : list A) (pair : A * A) (idx : A) : run (list A) :=
  scan (length text) text pair idx 0 [].

(** The state of the step-by-step cells: the current text, the list of
    tokens in use and the dictionary of merges. *)
Record state := State {
  text_values : list Z;
  tokens : list Z;
  merges : list ((Z * Z) * Z)
}.

(** [tokens = list(sorted(set(text_values)))]; [merges = {}]. *)
Definition init (text : list Z) : state :=
  State text (sorted_set text) [].

(** A merge cell:
    [text_values = replace_pairs(text_values, pair, idx)],
    [tokens.append(idx)], [merges[pair] = idx]. *)
Definition merge (st : state) (pair : Z * Z) (idx : Z) : run state :=
  let* text' := replace_pairs (text_values st) pair idx in
  Done (State text' (tokens st ++ [idx]) (dict_set (merges st) pair idx)).

End Part3.

(** ** Part 4: nuances *)

(** A Python [str] literal as the list of its code points (ASCII here). *)
Definition codes (s : string) : list Z :=
  map (fun a => Z.of_N (N_of_ascii a)) (list_ascii_of_string s).

(** [list(text)]: the one-character strings of [text]. *)
Definition chars_of (s : string) : list string :=
  map (fun a => String a EmptyString) (list_ascii_of_string s).

(** The fragment of the pattern language that [categories] is written in.
    Only character classes are repeated, so [Plus] takes a class. *)
Inductive regex :=
| Chr (c : Z)
| Class (p : Z -> bool)
| Seq (r1 r2 : regex)
| Alt (r1 r2 : regex)
| Opt (r : regex)
| Plus (p : Z -> bool)
| NegLookahead (r : regex).

(** Greedy [p+]: the longest run first, then shorter ones on backtracking.
    The results are the unconsumed suffixes. *)
Fixpoint plus_class (p : Z -> bool) (s : list Z) : list (list Z) :=
  match s with
  | [] => []
  | c :: s' => if p c then plus_class p s' ++ [s'] else []
  end.

(** All the ways [r] matches a prefix of [s], as the remaining suffixes in
    the order a backtracking matcher tries them: the head is the match the
    engine reports. *)
Fixpoint matches (r : regex) (s : list Z) : list (list Z) :=
  match r with
  | Chr c =>
      match s with
      | x :: s' => if bool_decide (x = c) then [s'] else []
      | [] => []
      end
  | Class p =>
      match s with
      | x :: s' => if p x then [s'] else []
      | [] => []
      end
  | Seq r1 r2 => matches r1 s ≫= matches r2
  | Alt r1 r2 => matches r1 s ++ matches r2 s
  | Opt r => matches r s ++ [s]
  | Plus p => plus_class p s
  | NegLookahead r =>
      match matches r s with
      | [] => [s]
      | _ :: _ => []
      end
  end.

(** [re.findall(r, s)] for a pattern without groups: scan from the left,
    report the match found at the current position and resume after it; a
    position where nothing matches is skipped.  No alternative of
    [categories] matches the empty string; for such a match the scan
    reports it and moves one character on. *)
Fixpoint findall_from (fuel : nat) (r : regex) (s : list Z) : list (list Z) :=
  match fuel with
  | O => []
  | S fuel' =>
      match s with
      | [] => []
      | _ :: s' =>
          match head (matches r s) with
          | Some rest =>
              if length rest <? length s
              then take (length s - length rest) s :: findall_from fuel' r rest
              else [] :: findall_from fuel' r s'
          | None => findall_from fuel' r s'
          end
      end
  end.

Definition findall (r : regex) (s : list Z) : list (list Z) :=
  findall_from (length s) r s.

Module Part4.

(** [get_stats(chars)]: as in Part 3, keeping only the counts above one. *)
Definition get_stats {A} `{EqDecision A} (chars : list A) : list ((A * A) * nat) :=
  let stats := sorted_desc (count_into [] (adjacent chars)) in
  filter (fun kv => 1 < kv.2) stats.

(** [replace_pairs(text, pair)]: the merged token is [pair[0] + pair[1]]. *)
Definition replace_pairs (text : list string) (pair : string * string)
    : run (list string) :=
  scan (length text) text pair (pair.1 +:+ pair.2) 0 [].

(** The merge loop of the two examples:
    [for _ in range(num_merges)]: [stats = get_stats(tokens)],
    [pair = max(stats, key=stats.get)],
    [tokens = replace_pairs(tokens, pair)].
    The second component is the list of pairs printed. *)
Fixpoint merge_loop (num_merges : nat) (tokens : list string)
    (printed : list (string * string))
    : run (list string * list (string * string)) :=
  match num_merges with
  | O => Done (tokens, printed)
  | S n =>
      let stats := get_stats tokens in
      let* pair := py_max stats.*1 (fun k => dict_get stats k 0) in
      let* tokens' := replace_pairs tokens pair in
      merge_loop n tokens' (printed ++ [pair])
  end.

(** The character classes of the pattern are tables of the [regex]
    library: they are parameters here. *)
Section Categories.
Variables (is_L is_N is_space : Z -> bool).

Definition str (s : string) : regex :=
  match codes s with
  | [] => Opt (Class (fun _ => false))
  | c :: cs => foldl (fun r x => Seq r (Chr x)) (Chr c) cs
  end.

(** [ ?\p{L}+] and its siblings: an optional space, then a run. *)
Definition opt_space_run (p : Z -> bool) : regex :=
  Seq (Opt (Chr 32)) (Plus p).

Definition other (c : Z) : bool := negb (is_space c || is_L c || is_N c).

(** ['s|'t|'re|'ve|'m|'ll|'d| ?\p{L}+| ?\p{N}+| ?[^\s\p{L}\p{N}]+|\s+(?!\S)|\s+] *)
Definition categories : regex :=
  Alt (str "'s") (Alt (str "'t") (Alt (str "'re") (Alt (str "'ve")
  (Alt (str "'m") (Alt (str "'ll") (Alt (str "'d")
  (Alt (opt_space_run is_L)
  (Alt (opt_space_run is_N)
  (Alt (opt_space_run other)
  (Alt (Seq (Plus is_space) (NegLookahead (Class (fun c => negb (is_space c)))))
       (Plus is_space))))))))))).
End Categories.

End Part4.

(** ** The categories of chunks

    The categories a chunk can belong to, as the specification lists them:
    a contraction suffix, a run of letters, of numerals or of other
    characters, each optionally preceded by one space, and a run of
    whitespace. *)

Inductive category := Contraction | Letters | Numerals | Others | Whitespace.

Section Chunks.
Variables (is_L is_N is_space : Z -> bool).

Definition contractions : list (list Z) :=
  map codes ["'s"; "'t"; "'re"; "'ve"; "'m"; "'ll"; "'d"]%string.

(** A non-empty run of characters of class [p]. *)
Definition run_of (p : Z -> bool) (l : list Z) : bool :=
  match l with
  | [] => false
  | _ :: _ => forallb p l
  end.

Definition opt_space_run_of (p : Z -> bool) (l : list Z) : bool :=
  run_of p l
  || match l with
     | c :: l' => (c =? 32)%Z && run_of p l'
     | [] => false
     end.

Definition in_category (cat : category) (chunk : list Z) : bool :=
  match cat with
  | Contraction => bool_decide (chunk ∈ contractions)
  | Letters => opt_space_run_of is_L chunk
  | Numerals => opt_space_run_of is_N chunk
  | Others => opt_space_run_of (Part4.other is_L is_N is_space) chunk
  | Whitespace => run_of is_space chunk
  end.

(** What the tables of the pattern library guarantee and the categories
    rely on: letters, numerals and whitespace are disjoint classes, the
    apostrophe is in none of them, and the letters of the contraction
    suffixes are letters. *)
Definition proper_classes : Prop :=
  (forall c, is_L c = true -> is_N c = false)
  /\ (forall c, is_space c = true -> is_L c = false /\ is_N c = false)
  /\ Part4.other is_L is_N is_space 39 = true
  /\ Forall (fun c => is_L c = true) (codes "stremvld").
End Chunks.

(** A pattern that consumes at least one character whenever it matches. *)
Fixpoint consuming (r : regex) : bool :=
  match r with
  | Chr _ | Class _ | Plus _ => true
  | Seq r1 r2 => consuming r1 || consuming r2
  | Alt r1 r2 => consuming r1 && consuming r2
  | Opt _ | NegLookahead _ => false
  end.

(** ** The tokenizer assembled from these pieces

    The notebooks stop at the pieces above: Part 4 describes, in prose, that
    the algorithm is then applied to each element of the segmented list
    independently, up to a vocabulary size fixed beforehand, and that the
    vocabulary and the ordered merges are what tokenizes new text.  The
    training loop over chunks, the vocabulary table, the encoder and the
    decoder are written here from the specification, on top of [adjacent],
    [count_into], [sorted_desc], [py_max], [rewrite_pairs] and [findall]. *)

Module Tokenizer.

(** Modelled from the spec: the state of training (sections 3 and 6): the
    current chunks, the vocabulary and the ordered merge table; the merge at
    position [k] creates the symbol [256 + k]. *)
Record model := Model {
  chunks : list (list Z);
  vocabulary : gmap Z (list Z);
  merges : list (Z * Z)
}.

(** Modelled from the spec: the PairCounter of section 4.2, which the
    notebooks only have for one sequence ([get_stats]).  The chunks are
    scanned in order, each from left to right, into one dictionary; no
    pair is formed across two chunks. *)
Definition pair_counts (cs : list (list Z)) : list ((Z * Z) * nat) :=
  sorted_desc (fold_left (fun st c => count_into st (adjacent c)) cs []).

(** Modelled from the spec: the selection of section 4.3, steps (2) and
    (3): the highest count among the pairs that occur more than once,
    with the [max(stats, key=stats.get)] of the Part 4 loop; [None] when
    no pair occurs more than once. *)
Definition select_pair (cs : list (list Z)) : option (Z * Z) :=
  let stats := filter (fun kv => 1 < kv.2) (pair_counts cs) in
  match py_max stats.*1 (fun k => dict_get stats k 0) with
  | Done p => Some p
  | _ => None
  end.

(** Modelled from the spec: the next symbol, counted from 256. *)
Definition next_id (m : model) : Z := 256 + Z.of_nat (length (merges m)).

(** Modelled from the spec: the entry of a symbol in the vocabulary. *)
Definition expansion (v : gmap Z (list Z)) (s : Z) : list Z :=
  default [] (v !! s).

(** Modelled from the spec: one round of the MergeTrainer loop of section
    4.3; [None] is the terminal state. *)
Definition train_step (target : nat) (m : model) : option model :=
  if target <=? size (vocabulary m) then None
  else
    match select_pair (chunks m) with
    | None => None
    | Some p =>
        let idx := next_id m in
        Some (Model
                (map (fun c => rewrite_pairs c p idx) (chunks m))
                (<[idx := expansion (vocabulary m) p.1
                          ++ expansion (vocabulary m) p.2]> (vocabulary m))
                (merges m ++ [p]))
    end.

(** Modelled from the spec: the rounds of the loop of section 4.3. *)
Fixpoint train_loop (rounds : nat) (target : nat) (m : model) : model :=
  match rounds with
  | O => m
  | S rounds' =>
      match train_step target m with
      | None => m
      | Some m' => train_loop rounds' target m'
      end
  end.

(** Modelled from the spec: the starting vocabulary, which maps each
    symbol of [alphabet] to itself. *)
Definition unit_vocabulary (alphabet : list Z) : gmap Z (list Z) :=
  list_to_map (map (fun c => (c, [c])) alphabet).

(** Modelled from the spec: training from given chunks and a starting
    alphabet.  Every round adds one entry to the vocabulary, so
    [target - size] rounds reach the target. *)
Definition train_chunks (alphabet : list Z) (cs : list (list Z)) (target : nat)
    : model :=
  let m := Model cs (unit_vocabulary alphabet) [] in
  train_loop (target - size (vocabulary m)) target m.

(** Modelled from the spec: the reserved symbols 0 to 255. *)
Definition byte_values : list Z := seqZ 0 256.

Section WithClasses.
Variables (is_L is_N is_space : Z -> bool).

(** [re.findall(categories, text)] *)
Definition segment (text : list Z) : list (list Z) :=
  findall (Part4.categories is_L is_N is_space) text.

(** Modelled from the spec: the training entry point of section 6. *)
Definition train (corpus : list Z) (target : nat)
    : run (gmap Z (list Z) * list (Z * Z)) :=
  if target <? 256 then Raise ConfigurationError
  else
    let m := train_chunks byte_values (segment corpus) target in
    Done (vocabulary m, merges m).
End WithClasses.

(** Modelled from the spec: the rank of a pair, its first position in the
    merge table. *)
Fixpoint rank_of (ms : list (Z * Z)) (p : Z * Z) : option nat :=
  match ms with
  | [] => None
  | q :: ms' => if decide (q = p) then Some 0 else S <$> rank_of ms' p
  end.

(** Modelled from the spec: the better of the best pair so far and [p]. *)
Definition lower (ms : list (Z * Z)) (best : option (nat * (Z * Z))) (p : Z * Z)
    : option (nat * (Z * Z)) :=
  match rank_of ms p with
  | None => best
  | Some k =>
      match best with
      | None => Some (k, p)
      | Some (k', _) => if k <? k' then Some (k, p) else best
      end
  end.

(** Modelled from the spec: among the adjacent pairs present, the one of
    lowest rank (section 4.4). *)
Definition lowest_rank (ms : list (Z * Z)) (syms : list Z) : option (nat * (Z * Z)) :=
  fold_left (lower ms) (adjacent syms) None.

(** Modelled from the spec: the Encoder of section 4.4 on one chunk.  Each
    round removes at least one symbol, so [length syms] rounds suffice. *)
Fixpoint encode_rounds (rounds : nat) (ms : list (Z * Z)) (syms : list Z) : list Z :=
  match rounds with
  | O => syms
  | S rounds' =>
      match lowest_rank ms syms with
      | None => syms
      | Some (k, p) =>
          encode_rounds rounds' ms (rewrite_pairs syms p (256 + Z.of_nat k)%Z)
      end
  end.

(** Modelled from the spec: the Encoder on one chunk. *)
Definition encode_chunk (ms : list (Z * Z)) (syms : list Z) : list Z :=
  encode_rounds (length syms) ms syms.

(** Modelled from the spec: the encode entry point; the symbol of a merge
    is [256 + rank], so the vocabulary is not consulted. *)
Definition encode (is_L is_N is_space : Z -> bool)
    (text : list Z) (ms : list (Z * Z)) : list Z :=
  concat (map (encode_chunk ms) (segment is_L is_N is_space text)).

(** Modelled from the spec: the Decoder of section 4.5. *)
Fixpoint decode (toks : list Z) (v : gmap Z (list Z)) : run (list Z) :=
  match toks with
  | [] => Done []
  | t :: toks' =>
      match v !! t with
      | None => Raise UnknownTokenError
      | Some bytes =>
          let* rest := decode toks' v in
          Done (bytes ++ rest)
      end
  end.

End Tokenizer.

(** The character classes restricted to ASCII, for the examples. *)
Definition ascii_L (c : Z) : bool :=
  ((65 <=? c) && (c <=? 90) || (97 <=? c) && (c <=? 122))%Z.
Definition ascii_N (c : Z) : bool := ((48 <=? c) && (c <=? 57))%Z.
Definition ascii_space (c : Z) : bool := ((9 <=? c) && (c <=? 13) || (c =? 32))%Z.

(** The number of symbols in all the chunks together. *)
Definition total_symbols (cs : list (list Z)) : nat := length (concat cs).

Definition is_byte (z : Z) : Prop := (0 <= z < 256)%Z.

(** The bytes a sequence of symbols stands for. *)
Definition expand (v : gmap Z (list Z)) (syms : list Z) : list Z :=
  syms ≫= Tokenizer.expansion v.

(** What training maintains, relative to the starting alphabet and to the
    chunks it was started on: the alphabet stands for itself; the other
    entries of the vocabulary are the symbols created so far; the symbols
    in use are in the vocabulary; the entry of every merge is the
    concatenation of the entries of its two sides; the chunks still stand
    for the original chunks; and every created entry is a piece of one
    original chunk. *)
Record consistent (alphabet : list Z) (origin : list (list Z)) (m : Tokenizer.model)
    : Prop := Consistent {
  consistent_alphabet : forall s,
    s ∈ alphabet -> Tokenizer.vocabulary m !! s = Some [s];
  consistent_dom : forall s,
    is_Some (Tokenizer.vocabulary m !! s)
    <-> s ∈ alphabet \/ (256 <= s < Tokenizer.next_id m)%Z;
  consistent_symbols : forall c s,
    c ∈ Tokenizer.chunks m -> s ∈ c -> is_Some (Tokenizer.vocabulary m !! s);
  consistent_merges : forall k l r,
    Tokenizer.merges m !! k = Some (l, r) ->
    is_Some (Tokenizer.vocabulary m !! l)
    /\ is_Some (Tokenizer.vocabulary m !! r)
    /\ Tokenizer.vocabulary m !! (256 + Z.of_nat k)%Z
       = Some (Tokenizer.expansion (Tokenizer.vocabulary m) l
               ++ Tokenizer.expansion (Tokenizer.vocabulary m) r);
  consistent_origin :
    expand (Tokenizer.vocabulary m) <$> Tokenizer.chunks m = origin;
  consistent_pieces : forall s bytes,
    (256 <= s)%Z -> Tokenizer.vocabulary m !! s = Some bytes ->
    exists c a b, c ∈ origin /\ c = a ++ bytes ++ b
}.

(** What the scan for the lowest rank has found after reading [seen]. *)
Definition lowest_of (ms : list (Z * Z)) (seen : list (Z * Z))
    (best : option (nat * (Z * Z))) : Prop :=
  match best with
  | None => forall q, q ∈ seen -> Tokenizer.rank_of ms q = None
  | Some (k, p) =>
      Tokenizer.rank_of ms p = Some k /\ p ∈ seen
      /\ forall q k', q ∈ seen -> Tokenizer.rank_of ms q = Some k' -> k <= k'
  end.

(** [''.join(tokens)] *)
Definition join (toks : list string) : string := foldr String.append EmptyString toks.

(** Writing the two symbols of [pair] back for every [idx]: the text a
    merge came from, when [idx] did not occur in it. *)
Definition unmerge (pair : Z * Z) (idx : Z) (text : list Z) : list Z :=
  text ≫= (fun x => if decide (x = idx) then [pair.1; pair.2] else [x]).

(** Whether a text begins with a character of class [p]. *)
Definition starts_with (p : Z -> bool) (s : list Z) : bool :=
  match s with
  | [] => false
  | x :: _ => p x
  end.

(** ** Part 2: tokenization by words *)

Module Part2.

(** [sorted(l)] on strings, which Python compares character by character. *)
Fixpoint insert_str (x : string) (l : list string) : list string :=
  match l with
  | [] => [x]
  | y :: l' => if String.leb x y then x :: l else y :: insert_str x l'
  end.

Definition sorted_str (l : list string) : list string := foldr insert_str [] l.

(** [vocab = sorted(list(set(par_tokens)))] *)
Definition vocab (par_tokens : list string) : list string :=
  sorted_str (remove_dups par_tokens).

(** What [check_tokens] prints for one token: the tick [chr(10004)], or the
    cross [chr(10006)] with the token. *)
Inductive mark := Tick | Cross (token : string).

(** [check_tokens(tokens, vocab)]: the marks printed, in order. *)
Definition check_tokens (tokens vocab : list string) : list mark :=
  map (fun token => if bool_decide (token ∈ vocab) then Tick else Cross token) tokens.

(** [d[k]]: [None] stands for [KeyError]. *)
Fixpoint dict_item {V} (d : list (string * V)) (k : string) : option V :=
  match d with
  | [] => None
  | (k', v) :: d' => if decide (k' = k) then Some v else dict_item d' k
  end.

(** [for token in par_tokens: t_freq[token] = t_freq.get(token, 0) + 1] *)
Definition t_freq (par_tokens : list string) : list (string * nat) :=
  count_into [] par_tokens.

(** [[token for token in keys if t_freq[token] > 1]] *)
Fixpoint tokens_freq (freq : list (string * nat)) (keys : list string)
    : option (list string) :=
  match keys with
  | [] => Some []
  | token :: keys' =>
      n ← dict_item freq token;
      rest ← tokens_freq freq keys';
      Some (if 1 <? n then token :: rest else rest)
  end.

(** [vocab_freq = sorted(list(set(tokens_freq)))], with [tokens_freq] taken
    over [t_freq.keys()]. *)
Definition vocab_freq (par_tokens : list string) : option (list string) :=
  let freq := t_freq par_tokens in
  kept ← tokens_freq freq freq.*1;
  Some (sorted_str (remove_dups kept)).

Definition unk : string := "<|unk|>".

(** [[token if token in vocab_freq else '<|unk|>' for token in tokens]] *)
Definition mark_unknown (vocab_freq tokens : list string) : list string :=
  map (fun token => if bool_decide (token ∈ vocab_freq) then token else unk) tokens.

End Part2.

(** * Properties *)

(** ** The scanning loop *)

Section ScanFacts.
Context {A : Type} `{EqDecision A}.
Implicit Types (text pre suf : list A) (pair : A * A).

Lemma getitem_middle pre x suf : getitem (pre ++ x :: suf) (length pre) = Done x.
Proof. unfold getitem. by rewrite list_lookup_middle. Qed.

Lemma getitem_ge text i : length text <= i -> getitem text i = Raise IndexError.
Proof. intros Hi. unfold getitem. by rewrite lookup_ge_None_2. Qed.

(** At the last position the guard answers before [text[i + 1]] is read. *)
Lemma hit_last pre x pair : hit (pre ++ [x]) pair (length pre) = Done false.
Proof.
  unfold hit. rewrite getitem_middle. simpl.
  case_bool_decide; [|done].
  rewrite length_app. simpl.
  destruct (Z.ltb_spec (Z.of_nat (length pre)) (Z.of_nat (length pre + 1) - 1)); [lia|done].
Qed.

Lemma hit_inner pre x y suf pair :
  hit (pre ++ x :: y :: suf) pair (length pre)
  = Done (bool_decide (x = pair.1) && bool_decide (y = pair.2)).
Proof.
  unfold hit. rewrite getitem_middle. simpl.
  case_bool_decide; [|done]. simpl.
  rewrite length_app. simpl.
  destruct (Z.ltb_spec (Z.of_nat (length pre)) (Z.of_nat (length pre + S (S (length suf))) - 1)); [|lia].
  replace (pre ++ x :: y :: suf) with ((pre ++ [x]) ++ y :: suf) by by rewrite <- app_assoc.
  replace (length pre + 1) with (length (pre ++ [x])) by (rewrite length_app; simpl; lia).
  by rewrite getitem_middle.
Qed.

(** With fuel for every remaining position, the loop ends normally and
    appends the rewriting of the rest of the text. *)
Lemma scan_rewrite fuel pair new : forall pre suf acc,
  length suf <= fuel ->
  scan fuel (pre ++ suf) pair new (length pre) acc
  = Done (acc ++ rewrite_pairs suf pair new).
Proof.
  induction fuel as [fuel IH] using lt_wf_ind. intros pre suf acc Hfuel.
  destruct suf as [|x rest].
  - rewrite app_nil_r. destruct fuel; simpl;
      (destruct (Nat.ltb_spec (length pre) (length pre)); [lia|]); by rewrite app_nil_r.
  - destruct fuel as [|fuel']; [simpl in Hfuel; lia|].
    cbn [scan].
    destruct (Nat.ltb_spec (length pre) (length (pre ++ x :: rest))) as [_|Hge];
      [|rewrite length_app in Hge; simpl in Hge; lia].
    destruct rest as [|y rest'].
    + rewrite hit_last. simpl. rewrite getitem_middle. simpl.
      replace (length pre + 1) with (length (pre ++ [x])) by (rewrite length_app; simpl; lia).
      replace (pre ++ [x]) with ((pre ++ [x]) ++ []) at 1 by by rewrite app_nil_r.
      rewrite (IH fuel'); [|lia|simpl; lia]. simpl. by rewrite app_nil_r.
    + rewrite hit_inner. cbn [run_bind rewrite_pairs].
      destruct (bool_decide (x = pair.1) && bool_decide (y = pair.2)).
      * replace (length pre + 2) with (length (pre ++ [x; y])) by (rewrite length_app; simpl; lia).
        replace (pre ++ x :: y :: rest') with ((pre ++ [x; y]) ++ rest') by by rewrite <- app_assoc.
        simpl in Hfuel.
        rewrite (IH fuel'); [|lia|lia]. by rewrite <- app_assoc.
      * rewrite getitem_middle. cbn [run_bind].
        replace (length pre + 1) with (length (pre ++ [x])) by (rewrite length_app; simpl; lia).
        replace (pre ++ x :: y :: rest') with ((pre ++ [x]) ++ y :: rest') by by rewrite <- app_assoc.
        rewrite (IH fuel'); [|lia|simpl in *; lia]. by rewrite <- app_assoc.
Qed.

Lemma scan_total text pair new :
  scan (length text) text pair new 0 [] = Done (rewrite_pairs text pair new).
Proof. by apply (scan_rewrite (length text) pair new [] text []). Qed.

Lemma rewrite_pairs_length text pair new :
  length (rewrite_pairs text pair new) <= length text.
Proof.
  induction text as [text IH] using (induction_ltof1 _ (@length A)). unfold ltof in IH.
  destruct text as [|x [|y rest]]; simpl; [lia|lia|].
  destruct (bool_decide (x = pair.1) && bool_decide (y = pair.2)); simpl.
  - specialize (IH rest). simpl in IH. lia.
  - specialize (IH (y :: rest)). simpl in IH. lia.
Qed.

Lemma rewrite_pairs_shorter text pair new :
  pair ∈ adjacent text -> length (rewrite_pairs text pair new) < length text.
Proof.
  induction text as [text IH] using (induction_ltof1 _ (@length A)). unfold ltof in IH.
  destruct text as [|x [|y rest]]; simpl; [by intros ?%elem_of_nil|by intros ?%elem_of_nil|].
  intros Hin.
  destruct (bool_decide (x = pair.1) && bool_decide (y = pair.2)) eqn:Hb; simpl.
  - pose proof (rewrite_pairs_length rest pair new). lia.
  - apply elem_of_cons in Hin as [->|Hin].
    + simpl in Hb. by rewrite !bool_decide_eq_true_2 in Hb.
    + specialize (IH (y :: rest)). simpl in IH. specialize (IH ltac:(lia) Hin). lia.
Qed.

Lemma rewrite_pairs_absent text pair new :
  pair ∉ adjacent text -> rewrite_pairs text pair new = text.
Proof.
  induction text as [text IH] using (induction_ltof1 _ (@length A)). unfold ltof in IH.
  destruct text as [|x [|y rest]]; simpl; [done|done|].
  intros Hin. apply not_elem_of_cons in Hin as [Hne Hin].
  destruct (bool_decide (x = pair.1) && bool_decide (y = pair.2)) eqn:Hb; simpl.
  - apply andb_true_iff in Hb as [H1%bool_decide_eq_true H2%bool_decide_eq_true].
    destruct pair; simpl in *; congruence.
  - f_equal. apply (IH (y :: rest)); [simpl; lia|done].
Qed.

Lemma rewrite_pairs_run (a new : A) n :
  rewrite_pairs (replicate n a) (a, a) new
  = replicate (n / 2) new ++ replicate (n mod 2) a.
Proof.
  induction n as [n IH] using lt_wf_ind.
  destruct n as [|[|n]]; [done|done|].
  cbn [replicate rewrite_pairs fst snd].
  rewrite !bool_decide_eq_true_2 by done. cbn [andb].
  rewrite IH by lia.
  replace (S (S n)) with (n + 1 * 2) by lia.
  rewrite Nat.div_add, Nat.Div0.mod_add by lia.
  replace (n / 2 + 1) with (S (n / 2)) by lia. done.
Qed.
End ScanFacts.

(** ** [replace_pairs] *)

Lemma Part3_replace_pairs_eq {A} `{EqDecision A} (text : list A) pair idx :
  Part3.replace_pairs text pair idx = Done (rewrite_pairs text pair idx).
Proof. apply scan_total. Qed.

Lemma Part4_replace_pairs_eq text pair :
  Part4.replace_pairs text pair = Done (rewrite_pairs text pair (pair.1 +:+ pair.2)).
Proof. apply scan_total. Qed.

Lemma rewrite_pairs_snoc {A} `{EqDecision A} (text : list A) x pair new :
  x <> pair.2 ->
  rewrite_pairs (text ++ [x]) pair new = rewrite_pairs text pair new ++ [x].
Proof.
  intros Hx.
  induction text as [text IH] using (induction_ltof1 _ (@length A)). unfold ltof in IH.
  destruct text as [|a [|b rest]]; [done| |].
  - simpl. by rewrite (bool_decide_eq_false_2 (x = pair.2)), andb_false_r.
  - cbn [app rewrite_pairs].
    destruct rest as [|c rest'].
    + cbn [app]. destruct (bool_decide (a = pair.1) && bool_decide (b = pair.2)); [done|].
      simpl. by rewrite (bool_decide_eq_false_2 (x = pair.2)), andb_false_r.
    + change (b :: (c :: rest') ++ [x]) with ((b :: c :: rest') ++ [x]).
      change ((c :: rest') ++ [x]) with ((c :: rest') ++ [x]).
      destruct (bool_decide (a = pair.1) && bool_decide (b = pair.2)).
      * cbn [app]. f_equal. apply (IH (c :: rest')). simpl; lia.
      * cbn [app]. f_equal. apply (IH (b :: c :: rest')). simpl; lia.
Qed.

(** C10: [replace_pairs] is total and stays in bounds.  With the fuel the
    functions give it, the loop of both variants ends normally (neither
    [IndexError] nor exhaustion) on every text and pair; the empty text maps
    to the empty text; at the last position the test answers [False]
    without reading [text[i + 1]] (a read that would raise [IndexError]),
    so a loop standing at the last position copies the symbol there, also
    when it equals the left element of the pair. *)
Theorem replace_pairs_total :
  (forall (text : list Z) pair idx,
      Part3.replace_pairs text pair idx = Done (rewrite_pairs text pair idx))
  /\ (forall text pair,
      Part4.replace_pairs text pair
      = Done (rewrite_pairs text pair (pair.1 +:+ pair.2)))
  /\ (forall (pair : Z * Z) idx, Part3.replace_pairs [] pair idx = Done [])
  /\ (forall pair, Part4.replace_pairs [] pair = Done [])
  /\ (forall (pre : list Z) pair,
      hit (pre ++ [pair.1]) pair (length pre) = Done false
      /\ getitem (pre ++ [pair.1]) (length pre + 1) = Raise IndexError)
  /\ (forall fuel (pre : list Z) pair new acc,
      scan (S fuel) (pre ++ [pair.1]) pair new (length pre) acc
      = Done (acc ++ [pair.1])).
Proof.
  split_and!.
  - intros. apply Part3_replace_pairs_eq.
  - intros. apply Part4_replace_pairs_eq.
  - done.
  - done.
  - intros pre pair. split; [apply hit_last|].
    apply getitem_ge. rewrite length_app. simpl. lia.
  - intros fuel pre pair new acc.
    rewrite (scan_rewrite (S fuel) pair new pre [pair.1] acc); [done|simpl; lia].
Qed.

(** C4: the rewriting replaces the occurrences of the pair from left to
    right without overlap.  On a text of at least two symbols the loop
    either consumes both symbols of a leading occurrence and goes on behind
    it, or copies the first symbol and goes on at the second; a run of [n]
    equal symbols [a] with the pair [(a, a)] gives [n / 2] merged symbols
    followed by [n mod 2] symbols [a], so [a a a] gives one merged symbol and
    one [a]; the symbol written is not examined again. *)
Theorem replace_pairs_nonoverlapping :
  (forall (x y : Z) rest pair idx,
      Part3.replace_pairs (x :: y :: rest) pair idx
      = if bool_decide ((x, y) = pair)
        then let* out := Part3.replace_pairs rest pair idx in Done (idx :: out)
        else let* out := Part3.replace_pairs (y :: rest) pair idx in Done (x :: out))
  /\ (forall x y rest pair,
      Part4.replace_pairs (x :: y :: rest) pair
      = if bool_decide ((x, y) = pair)
        then let* out := Part4.replace_pairs rest pair in Done ((x +:+ y) :: out)
        else let* out := Part4.replace_pairs (y :: rest) pair in Done (x :: out))
  /\ (forall (x : Z) pair idx, Part3.replace_pairs [x] pair idx = Done [x])
  /\ (forall (a idx : Z) n,
      Part3.replace_pairs (replicate n a) (a, a) idx
      = Done (replicate (n / 2) idx ++ replicate (n mod 2) a))
  /\ (forall a idx : Z, Part3.replace_pairs [a; a; a] (a, a) idx = Done [idx; a])
  /\ Part4.replace_pairs ["a"; "a"; "a"]%string ("a", "a")%string
     = Done ["aa"; "a"]%string
  /\ (forall a b : Z, Part3.replace_pairs [a; b; b] (a, b) a = Done [a; b]).
Proof.
  split_and!.
  - intros x y rest [p1 p2] idx. rewrite !Part3_replace_pairs_eq.
    cbn [rewrite_pairs fst snd run_bind].
    repeat case_bool_decide; simplify_eq; done.
  - intros x y rest [p1 p2]. rewrite !Part4_replace_pairs_eq.
    cbn [rewrite_pairs fst snd run_bind].
    repeat case_bool_decide; simplify_eq; done.
  - intros. by rewrite Part3_replace_pairs_eq.
  - intros. rewrite Part3_replace_pairs_eq. by rewrite rewrite_pairs_run.
  - intros. rewrite Part3_replace_pairs_eq. by rewrite (rewrite_pairs_run a idx 3).
  - by vm_compute.
  - intros a b. rewrite Part3_replace_pairs_eq. cbn [rewrite_pairs fst snd].
    repeat case_bool_decide; simplify_eq; done.
Qed.


Lemma rewrite_chunks_length (cs : list (list Z)) pair idx :
  total_symbols (map (fun c => rewrite_pairs c pair idx) cs) <= total_symbols cs.
Proof.
  unfold total_symbols. induction cs as [|c cs IH]; simpl; [lia|].
  rewrite !length_app. pose proof (rewrite_pairs_length c pair idx). lia.
Qed.

Lemma rewrite_chunks_shorter (cs : list (list Z)) pair idx :
  Exists (fun c => pair ∈ adjacent c) cs ->
  total_symbols (map (fun c => rewrite_pairs c pair idx) cs) < total_symbols cs.
Proof.
  unfold total_symbols. induction 1 as [c cs Hc|c cs _ IH]; simpl; rewrite !length_app.
  - pose proof (rewrite_pairs_shorter c pair idx Hc).
    pose proof (rewrite_chunks_length cs pair idx). unfold total_symbols in *. lia.
  - pose proof (rewrite_pairs_length c pair idx). lia.
Qed.

Lemma rewrite_chunks_absent (cs : list (list Z)) pair idx :
  ~ Exists (fun c => pair ∈ adjacent c) cs ->
  map (fun c => rewrite_pairs c pair idx) cs = cs.
Proof.
  induction cs as [|c cs IH]; simpl; [done|].
  intros Hn. f_equal.
  - apply rewrite_pairs_absent. intros ?. apply Hn. by left.
  - apply IH. intros ?. apply Hn. by right.
Qed.

(** C6: a merge cell appends exactly one token to the list of tokens, so
    their number grows by exactly one, and the text it writes is never longer
    than the text it read: strictly shorter when the pair occurs in it,
    unchanged otherwise.  The same holds for the total number of symbols
    when every chunk of a list is rewritten. *)
Theorem merge_growth :
  (forall st pair idx, exists st',
      Part3.merge st pair idx = Done st'
      /\ Part3.tokens st' = Part3.tokens st ++ [idx]
      /\ length (Part3.tokens st') = S (length (Part3.tokens st))
      /\ length (Part3.text_values st') <= length (Part3.text_values st)
      /\ (if bool_decide (pair ∈ adjacent (Part3.text_values st))
          then length (Part3.text_values st') < length (Part3.text_values st)
          else Part3.text_values st' = Part3.text_values st))
  /\ (forall (cs : list (list Z)) pair idx,
      let cs' := map (fun c => rewrite_pairs c pair idx) cs in
      total_symbols cs' <= total_symbols cs
      /\ (if bool_decide (Exists (fun c => pair ∈ adjacent c) cs)
          then total_symbols cs' < total_symbols cs
          else cs' = cs)).
Proof.
  split.
  - intros st pair idx. unfold Part3.merge.
    rewrite Part3_replace_pairs_eq. cbn [run_bind]. eexists. split; [done|].
    cbn [Part3.tokens Part3.text_values]. split_and!.
    + done.
    + rewrite length_app. simpl. lia.
    + apply rewrite_pairs_length.
    + case_bool_decide.
      * by apply rewrite_pairs_shorter.
      * by apply rewrite_pairs_absent.
  - intros cs pair idx cs'. split; [apply rewrite_chunks_length|].
    case_bool_decide.
    + by apply rewrite_chunks_shorter.
    + by apply rewrite_chunks_absent.
Qed.

(** ** The pattern matcher *)

Lemma plus_class_elem p s rest :
  rest ∈ plus_class p s ->
  exists run, s = run ++ rest /\ run <> [] /\ forallb p run = true.
Proof.
  revert rest. induction s as [|c s IH]; intros rest; simpl; [by intros ?%elem_of_nil|].
  destruct (p c) eqn:Hc; [|by intros ?%elem_of_nil].
  intros [Hin| ->%list_elem_of_singleton]%elem_of_app.
  - destruct (IH _ Hin) as (run & -> & _ & Hrun).
    exists (c :: run). simpl. by rewrite Hc, Hrun.
  - exists [c]. simpl. by rewrite Hc.
Qed.

Lemma plus_class_nonempty p c s : p c = true -> plus_class p (c :: s) <> [].
Proof. simpl. intros ->. by destruct (plus_class p s). Qed.

(** A match leaves a suffix of the input. *)
Lemma matches_suffix r : forall s rest, rest ∈ matches r s -> rest `suffix_of` s.
Proof.
  induction r as [c|p|r1 IH1 r2 IH2|r1 IH1 r2 IH2|r IH|p|r IH]; intros s rest; simpl.
  - destruct s as [|x s]; [by intros ?%elem_of_nil|].
    case_bool_decide; [|by intros ?%elem_of_nil].
    intros ->%list_elem_of_singleton. by apply suffix_cons_r.
  - destruct s as [|x s]; [by intros ?%elem_of_nil|].
    destruct (p x); [|by intros ?%elem_of_nil].
    intros ->%list_elem_of_singleton. by apply suffix_cons_r.
  - intros (mid & Hrest & Hmid)%list_elem_of_bind.
    etrans; [by apply IH2|by apply IH1].
  - intros [?|?]%elem_of_app; auto.
  - intros [?| ->%list_elem_of_singleton]%elem_of_app; auto.
  - intros (run & -> & _)%plus_class_elem. by apply suffix_app_r.
  - destruct (matches r s); [|by intros ?%elem_of_nil].
    by intros ->%list_elem_of_singleton.
Qed.

Lemma matches_consuming r : forall s rest,
  consuming r = true -> rest ∈ matches r s -> length rest < length s.
Proof.
  induction r as [c|p|r1 IH1 r2 IH2|r1 IH1 r2 IH2|r IH|p|r IH]; intros s rest; simpl; try done.
  - intros _. destruct s as [|x s]; [by intros ?%elem_of_nil|].
    case_bool_decide; [|by intros ?%elem_of_nil].
    intros ->%list_elem_of_singleton. simpl. lia.
  - intros _. destruct s as [|x s]; [by intros ?%elem_of_nil|].
    destruct (p x); [|by intros ?%elem_of_nil].
    intros ->%list_elem_of_singleton. simpl. lia.
  - intros Hc (mid & Hrest & Hmid)%list_elem_of_bind.
    pose proof (suffix_length _ _ (matches_suffix _ _ _ Hrest)).
    pose proof (suffix_length _ _ (matches_suffix _ _ _ Hmid)).
    apply orb_true_iff in Hc as [Hc|Hc].
    + specialize (IH1 _ _ Hc Hmid). lia.
    + specialize (IH2 _ _ Hc Hrest). lia.
  - intros [H1 H2]%andb_true_iff [?|?]%elem_of_app; auto.
  - intros _ (run & -> & Hne & _)%plus_class_elem.
    rewrite length_app. destruct run; [done|simpl; lia].
Qed.

(** [findall] cuts the text into the matches when the pattern matches
    something non-empty at every position. *)
Lemma findall_from_partition r :
  consuming r = true ->
  (forall c s, matches r (c :: s) <> []) ->
  forall fuel s, length s <= fuel ->
    concat (findall_from fuel r s) = s /\ Forall (fun c => c <> []) (findall_from fuel r s).
Proof.
  intros Hcons Hcover fuel. induction fuel as [fuel IH] using lt_wf_ind.
  intros s Hfuel. destruct fuel as [|fuel'].
  - destruct s; [done|simpl in Hfuel; lia].
  - destruct s as [|c s']; [done|]. cbn [findall_from].
    destruct (head (matches r (c :: s'))) as [rest|] eqn:Hhead.
    + apply head_Some in Hhead as [l' Hl'].
      assert (Hin : rest ∈ matches r (c :: s')) by (rewrite Hl'; left).
      pose proof (matches_consuming _ _ _ Hcons Hin) as Hlt.
      destruct (matches_suffix _ _ _ Hin) as [pre Hpre].
      destruct (Nat.ltb_spec (length rest) (length (c :: s'))); [|lia].
      assert (take (length (c :: s') - length rest) (c :: s') = pre) as ->.
      { rewrite Hpre, length_app, Nat.add_sub. apply take_app_length. }
      destruct (IH fuel' ltac:(lia) rest) as [IHc IHf]; [simpl in *; lia|].
      split.
      * simpl. by rewrite IHc, Hpre.
      * constructor; [|done]. intros ->. rewrite Hpre in Hlt. simpl in Hlt. lia.
    + apply head_None in Hhead. by apply Hcover in Hhead.
Qed.

Lemma findall_from_Forall r (P : list Z -> Prop) :
  consuming r = true ->
  (forall s pre rest, rest ∈ matches r s -> s = pre ++ rest -> P pre) ->
  forall fuel s, Forall P (findall_from fuel r s).
Proof.
  intros Hcons HP fuel. induction fuel as [|fuel IH]; intros s; [constructor|].
  destruct s as [|c s']; [constructor|]. cbn [findall_from].
  destruct (head (matches r (c :: s'))) as [rest|] eqn:Hhead; [|apply IH].
  apply head_Some in Hhead as [l' Hl'].
  assert (Hin : rest ∈ matches r (c :: s')) by (rewrite Hl'; left).
  pose proof (matches_consuming _ _ _ Hcons Hin) as Hlt.
  destruct (matches_suffix _ _ _ Hin) as [pre Hpre].
  destruct (Nat.ltb_spec (length rest) (length (c :: s'))); [|lia].
  constructor; [|apply IH].
  apply (HP (c :: s') _ rest Hin).
  rewrite Hpre at 1. rewrite Hpre, length_app, Nat.add_sub.
  by rewrite take_app_length.
Qed.

Lemma matches_chr c s rest : rest ∈ matches (Chr c) s <-> s = c :: rest.
Proof.
  simpl. destruct s as [|x s].
  - split; [by intros ?%elem_of_nil|done].
  - case_bool_decide as Hx.
    + rewrite list_elem_of_singleton. split; [by intros ->; subst|by intros [= ->]].
    + split; [by intros ?%elem_of_nil|]. intros [= ? ?]. by subst.
Qed.

Lemma matches_foldl_chr cs : forall r0 s rest,
  rest ∈ matches (foldl (fun r x => Seq r (Chr x)) r0 cs) s
  <-> exists mid, mid ∈ matches r0 s /\ mid = cs ++ rest.
Proof.
  induction cs as [|x cs IH]; intros r0 s rest; cbn [foldl].
  - simpl. split; [eauto|]. by intros (mid & ? & ->).
  - rewrite IH. cbn [matches]. split.
    + intros (mid & (mid' & Hmid & Hmid')%list_elem_of_bind & ->).
      apply matches_chr in Hmid as ->. eauto.
    + intros (mid & Hmid & ->). exists (cs ++ rest). split; [|done].
      apply list_elem_of_bind. exists (x :: cs ++ rest). split; [|done].
      by apply (proj2 (matches_chr x (x :: cs ++ rest) (cs ++ rest))).
Qed.

Lemma matches_str lit s rest :
  codes lit <> [] ->
  rest ∈ matches (Part4.str lit) s <-> s = codes lit ++ rest.
Proof.
  unfold Part4.str. destruct (codes lit) as [|c cs]; [done|]. intros _.
  rewrite matches_foldl_chr. split.
  - intros (mid & ->%matches_chr & ->). done.
  - intros ->. exists (cs ++ rest). split; [|done].
    by apply (proj2 (matches_chr c (c :: cs ++ rest) (cs ++ rest))).
Qed.

Lemma matches_opt_space_run p s rest :
  rest ∈ matches (Part4.opt_space_run p) s ->
  exists run, run <> [] /\ forallb p run = true
              /\ (s = run ++ rest \/ s = 32%Z :: run ++ rest).
Proof.
  unfold Part4.opt_space_run. cbn [matches].
  intros (mid & (run & -> & Hne & Hrun)%plus_class_elem & Hmid)%list_elem_of_bind.
  exists run. split_and!; [done..|].
  apply elem_of_app in Hmid as [Hmid| ->%list_elem_of_singleton]; [|by left].
  right. by apply (proj1 (matches_chr 32 s (run ++ rest))).
Qed.

Lemma run_of_intro p run : run <> [] -> forallb p run = true -> run_of p run = true.
Proof. by destruct run. Qed.

Section ChunkFacts.
Variables (is_L is_N is_space : Z -> bool).
#[local] Abbreviation categories := (Part4.categories is_L is_N is_space).
#[local] Abbreviation other := (Part4.other is_L is_N is_space).
#[local] Abbreviation in_category := (in_category is_L is_N is_space).

Lemma categories_consuming : consuming categories = true.
Proof. reflexivity. Qed.

Lemma opt_space_run_cover p c s :
  p c = true -> matches (Part4.opt_space_run p) (c :: s) <> [].
Proof.
  intros Hp. unfold Part4.opt_space_run. cbn [matches].
  destruct (plus_class p (c :: s)) as [|rest l] eqn:Hplus;
    [by apply plus_class_nonempty in Hplus|].
  apply (elem_of_not_nil rest). apply list_elem_of_bind. exists (c :: s). split.
  - rewrite Hplus. left.
  - apply elem_of_app. right. left.
Qed.

(** The pattern matches at every position of a text. *)
Lemma categories_cover c s : matches categories (c :: s) <> [].
Proof.
  assert (Happ : forall (l1 l2 : list (list Z)), l2 <> [] -> l1 ++ l2 <> []).
  { intros [|] ? ?; simpl; done. }
  assert (Happ' : forall (l1 l2 : list (list Z)), l1 <> [] -> l1 ++ l2 <> []).
  { intros [|] ? ?; simpl; done. }
  unfold Part4.categories.
  do 7 (cbn [matches]; apply Happ).
  destruct (is_L c) eqn:HL.
  { cbn [matches]. apply Happ'. by apply opt_space_run_cover. }
  cbn [matches]; apply Happ.
  destruct (is_N c) eqn:HN.
  { cbn [matches]. apply Happ'. by apply opt_space_run_cover. }
  cbn [matches]; apply Happ.
  destruct (is_space c) eqn:HS.
  - cbn [matches]. do 2 apply Happ. by apply plus_class_nonempty.
  - cbn [matches]. apply Happ'. apply opt_space_run_cover.
    unfold Part4.other. by rewrite HL, HN, HS.
Qed.

(** What a match consumed belongs to one of the categories. *)
Lemma categories_match s pre rest :
  rest ∈ matches categories s -> s = pre ++ rest ->
  exists cat, in_category cat pre = true.
Proof.
  assert (Hpre : forall pre', s = pre' ++ rest -> s = pre ++ rest -> pre = pre').
  { intros pre' -> Heq. by apply app_inv_tail in Heq. }
  unfold Part4.categories. cbn [matches]. rewrite !elem_of_app.
  intros Hm Hs.
  assert (Hlit : forall lit, codes lit ∈ contractions ->
             rest ∈ matches (Part4.str lit) s -> in_category Contraction pre = true).
  { intros lit Hin Hmatch.
    apply matches_str in Hmatch; [|by intros Hnil; rewrite Hnil in Hin; vm_compute in Hin;
      repeat (apply elem_of_cons in Hin as [Hin|Hin]; [done|]); by apply elem_of_nil in Hin].
    rewrite (Hpre _ Hmatch Hs). simpl. by apply bool_decide_eq_true_2. }
  assert (Hrun : forall p, rest ∈ matches (Part4.opt_space_run p) s ->
             opt_space_run_of p pre = true).
  { intros p (run & Hne & Hall & [Heq|Heq])%matches_opt_space_run.
    - rewrite (Hpre _ Heq Hs). unfold opt_space_run_of.
      by rewrite (run_of_intro _ _ Hne Hall).
    - rewrite (Hpre (32%Z :: run) Heq Hs). unfold opt_space_run_of.
      rewrite (run_of_intro _ _ Hne Hall). simpl. apply orb_true_r. }
  assert (Hws : forall mid, mid ∈ plus_class is_space s -> rest = mid ->
             in_category Whitespace pre = true).
  { intros mid (run & Heq & Hne & Hall)%plus_class_elem <-.
    rewrite (Hpre _ Heq Hs). by apply run_of_intro. }
  destruct Hm as [?|[?|[?|[?|[?|[?|[?|[?|[?|[?|[Hm|Hm]]]]]]]]]]].
  1-7: exists Contraction; eapply Hlit; [|done]; apply list_elem_of_In; vm_compute; auto 10.
  - exists Letters. by apply Hrun.
  - exists Numerals. by apply Hrun.
  - exists Others. by apply Hrun.
  - apply list_elem_of_bind in Hm as (mid & Hrest & Hmid).
    exists Whitespace. apply (Hws mid Hmid).
    cbn [matches] in Hrest. destruct mid as [|x mid]; [|destruct (negb (is_space x))].
    all: first [by apply list_elem_of_singleton in Hrest | by apply elem_of_nil in Hrest].
  - exists Whitespace. by apply (Hws rest).
Qed.
End ChunkFacts.

Lemma opt_space_run_of_member p l :
  opt_space_run_of p l = true ->
  match l with
  | [] => False
  | [x] => p x = true
  | _ :: y :: _ => p y = true
  end.
Proof.
  unfold opt_space_run_of. destruct l as [|x [|y l]]; simpl.
  - done.
  - rewrite !andb_false_r, orb_false_r, andb_true_r. done.
  - rewrite orb_true_iff, !andb_true_iff. tauto.
Qed.

Lemma opt_space_run_of_disjoint p q l :
  (forall c, p c = true -> q c = false) ->
  opt_space_run_of p l = true -> opt_space_run_of q l = true -> False.
Proof.
  intros Hpq Hp%opt_space_run_of_member Hq%opt_space_run_of_member.
  destruct l as [|x [|y l]]; [done|..].
  - apply Hpq in Hp. congruence.
  - apply Hpq in Hp. congruence.
Qed.

Section CategoryFacts.
Variables (is_L is_N is_space : Z -> bool).
Hypothesis Hproper : proper_classes is_L is_N is_space.
#[local] Abbreviation other := (Part4.other is_L is_N is_space).
#[local] Abbreviation in_cat := (in_category is_L is_N is_space).

Lemma other_spec c :
  other c = true <-> is_space c = false /\ is_L c = false /\ is_N c = false.
Proof.
  unfold Part4.other. rewrite negb_true_iff, !orb_false_iff. tauto.
Qed.

Lemma apostrophe_class : is_space 39 = false /\ is_L 39 = false /\ is_N 39 = false.
Proof. apply other_spec. apply Hproper. Qed.

Lemma contraction_shape chunk :
  in_cat Contraction chunk = true ->
  exists y t, chunk = 39%Z :: y :: t /\ is_L y = true.
Proof.
  destruct Hproper as (_ & _ & _ & Hletters).
  simpl. intros Hin%bool_decide_eq_true.
  vm_compute codes in Hletters. rewrite !Forall_cons in Hletters.
  vm_compute in Hin.
  repeat (apply elem_of_cons in Hin as [->|Hin]; [eexists _, _; split; [done|tauto]|]).
  by apply elem_of_nil in Hin.
Qed.

Lemma contraction_not_run p chunk :
  (p = is_L \/ forall c, is_L c = true -> p c = false) ->
  in_cat Contraction chunk = true -> opt_space_run_of p chunk = true -> False.
Proof.
  intros Hp (y & t & -> & Hy)%contraction_shape Hrun.
  destruct apostrophe_class as (_ & HL & _).
  destruct Hp as [->|Hp].
  - unfold opt_space_run_of in Hrun. simpl in Hrun. by rewrite HL in Hrun.
  - apply opt_space_run_of_member in Hrun. rewrite (Hp _ Hy) in Hrun. done.
Qed.

(** The categories exclude one another. *)
Lemma category_unique chunk c1 c2 :
  in_cat c1 chunk = true -> in_cat c2 chunk = true -> c1 = c2.
Proof.
  destruct Hproper as (HLN & HS & _ & _).
  assert (HLO : forall c, is_L c = true -> other c = false).
  { intros c Hc. unfold Part4.other. by rewrite Hc, orb_true_r. }
  assert (HNO : forall c, is_N c = true -> other c = false).
  { intros c Hc. unfold Part4.other. by rewrite Hc, !orb_true_r. }
  assert (HSO : forall c, is_space c = true -> other c = false).
  { intros c Hc. unfold Part4.other. by rewrite Hc. }
  assert (HLS : forall c, is_L c = true -> is_space c = false).
  { intros c Hc. destruct (is_space c) eqn:Hs; [|done]. apply HS in Hs as [? ?]. congruence. }
  assert (HNS : forall c, is_N c = true -> is_space c = false).
  { intros c Hc. destruct (is_space c) eqn:Hs; [|done]. apply HS in Hs as [? ?]. congruence. }
  assert (Hws : run_of is_space chunk = true -> opt_space_run_of is_space chunk = true).
  { unfold opt_space_run_of. by intros ->. }
  destruct c1, c2; try done; intros H1 H2; cbn [in_category] in H1, H2; exfalso;
    try apply Hws in H1; try apply Hws in H2.
  - eapply (contraction_not_run is_L); eauto.
  - eapply (contraction_not_run is_N); eauto.
  - eapply (contraction_not_run other); eauto.
  - eapply (contraction_not_run is_space); eauto.
  - eapply (contraction_not_run is_L); eauto.
  - by apply (opt_space_run_of_disjoint is_L is_N chunk).
  - by apply (opt_space_run_of_disjoint is_L other chunk).
  - by apply (opt_space_run_of_disjoint is_L is_space chunk).
  - eapply (contraction_not_run is_N); eauto.
  - by apply (opt_space_run_of_disjoint is_L is_N chunk).
  - by apply (opt_space_run_of_disjoint is_N other chunk).
  - by apply (opt_space_run_of_disjoint is_N is_space chunk).
  - eapply (contraction_not_run other); eauto.
  - by apply (opt_space_run_of_disjoint is_L other chunk).
  - by apply (opt_space_run_of_disjoint is_N other chunk).
  - by apply (opt_space_run_of_disjoint is_space other chunk).
  - eapply (contraction_not_run is_space); eauto.
  - by apply (opt_space_run_of_disjoint is_L is_space chunk).
  - by apply (opt_space_run_of_disjoint is_N is_space chunk).
  - by apply (opt_space_run_of_disjoint is_space other chunk).
Qed.
End CategoryFacts.

Lemma ascii_proper : proper_classes ascii_L ascii_N ascii_space.
Proof.
  unfold proper_classes, ascii_L, ascii_N, ascii_space. split_and!.
  - intros c. rewrite orb_true_iff, andb_false_iff, !andb_true_iff, !Z.leb_le, !Z.leb_gt. lia.
  - intros c. rewrite !orb_true_iff, !orb_false_iff, !andb_false_iff, !andb_true_iff,
      !Z.leb_le, !Z.leb_gt, Z.eqb_eq. lia.
  - done.
  - by vm_compute; repeat constructor.
Defined.

(** The two segmentations printed in Part 4. *)
Example findall_example_1 :
  findall (Part4.categories ascii_L ascii_N ascii_space) (codes "my dog. your dog.")
  = map codes ["my"; " dog"; "."; " your"; " dog"; "."]%string.
Proof. by vm_compute. Qed.

Example findall_example_2 :
  findall (Part4.categories ascii_L ascii_N ascii_space)
    (codes "one dog. one dinosaur. one dingo.")
  = map codes ["one"; " dog"; "."; " one"; " dinosaur"; "."; " one"; " dingo"; "."]%string.
Proof. by vm_compute. Qed.

(** The chunks cut with [categories] concatenate to the text. *)
Lemma findall_categories_concat (is_L is_N is_space : Z -> bool) (text : list Z) :
  concat (findall (Part4.categories is_L is_N is_space) text) = text
  /\ Forall (fun c => c <> []) (findall (Part4.categories is_L is_N is_space) text).
Proof.
  unfold findall.
  by apply (findall_from_partition _ (categories_consuming is_L is_N is_space)
              (categories_cover is_L is_N is_space) (length text) text).
Qed.

(** C7: the chunks that [findall] cuts with [categories] are a partition of
    the text: concatenated in order they give the text back and none is
    empty, so that every character of the input lies in exactly one chunk;
    every chunk belongs to a category, and to one only as soon as the
    character classes are the disjoint classes they are meant to be. *)
Theorem segment_partition (is_L is_N is_space : Z -> bool) (text : list Z) :
  let chunks := findall (Part4.categories is_L is_N is_space) text in
  concat chunks = text
  /\ Forall (fun c => c <> []) chunks
  /\ Forall (fun c => exists cat, in_category is_L is_N is_space cat c = true) chunks
  /\ (proper_classes is_L is_N is_space ->
      Forall (fun c => forall c1 c2,
                in_category is_L is_N is_space c1 c = true ->
                in_category is_L is_N is_space c2 c = true -> c1 = c2) chunks).
Proof.
  intros chunks. subst chunks.
  destruct (findall_categories_concat is_L is_N is_space text) as [Hc Hne].
  split_and!; [done|done| |].
  - unfold findall.
    apply findall_from_Forall; [apply categories_consuming|apply categories_match].
  - intros Hproper. apply Forall_forall. intros c _ c1 c2.
    by apply category_unique.
Qed.

Lemma segment_partition_witness :
  proper_classes ascii_L ascii_N ascii_space
  /\ Forall (fun c => forall c1 c2,
               in_category ascii_L ascii_N ascii_space c1 c = true ->
               in_category ascii_L ascii_N ascii_space c2 c = true -> c1 = c2)
       (findall (Part4.categories ascii_L ascii_N ascii_space) (codes "my dog. your dog.")).
Proof.
  split; [exact ascii_proper|].
  exact (proj2 (proj2 (proj2
    (segment_partition ascii_L ascii_N ascii_space (codes "my dog. your dog.")))) ascii_proper).
Defined.

(** ** Counting pairs *)

Section DictFacts.
Context {K : Type} `{EqDecision K}.
Implicit Types (d st : list (K * nat)) (ps : list K).

Lemma dict_get_set {V} (st : list (K * V)) k v k' (dflt : V) :
  dict_get (dict_set st k v) k' dflt
  = if decide (k = k') then v else dict_get st k' dflt.
Proof.
  induction st as [|[k0 v0] st IH]; simpl.
  - by destruct (decide (k = k')).
  - destruct (decide (k0 = k)) as [->|Hne]; simpl.
    + by destruct (decide (k = k')).
    + destruct (decide (k0 = k')) as [->|]; [|done].
      by destruct (decide (k = k')).
Qed.

Lemma dict_set_keys st k v :
  st.*1 ++ (if bool_decide (k ∈ st.*1) then [] else [k]) = (dict_set st k v).*1.
Proof.
  induction st as [|[k0 v0] st IH]; csimpl; [done|].
  destruct (decide (k0 = k)) as [->|Hne]; csimpl.
  - rewrite bool_decide_eq_true_2 by left. by rewrite app_nil_r.
  - rewrite <- IH. f_equal.
    rewrite (bool_decide_ext (k ∈ k0 :: st.*1) (k ∈ st.*1)); [done|].
    rewrite elem_of_cons. split; [intros [->|?]; done|by right].
Qed.

Lemma dict_get_lookup d k v :
  NoDup d.*1 -> (k, v) ∈ d -> dict_get d k 0 = v.
Proof.
  induction d as [|[k0 v0] d IH]; simpl; [by intros _ ?%elem_of_nil|].
  intros [Hk0 Hnd]%NoDup_cons [[= -> ->]|Hin]%elem_of_cons.
  - by rewrite decide_True.
  - rewrite decide_False; [by apply IH|].
    intros ->. apply Hk0. apply list_elem_of_fmap. by exists (k, v).
Qed.

Lemma count_into_cons st p ps :
  count_into st (p :: ps) = count_into (dict_set st p (dict_get st p 0 + 1)) ps.
Proof. done. Qed.

Lemma count_into_app st ps1 ps2 :
  count_into st (ps1 ++ ps2) = count_into (count_into st ps1) ps2.
Proof. apply fold_left_app. Qed.

(** The count recorded for a key is the number of its occurrences. *)
Lemma count_into_get ps : forall st p,
  dict_get (count_into st ps) p 0 = dict_get st p 0 + occurrences p ps.
Proof.
  unfold occurrences.
  induction ps as [|q ps IH]; intros st p; [simpl; lia|].
  rewrite count_into_cons, IH, dict_get_set, filter_cons.
  destruct (decide (q = p)) as [->|]; simpl; lia.
Qed.

(** Keys are only ever added, at the end. *)
Lemma count_into_keys ps : forall st,
  exists extra, (count_into st ps).*1 = st.*1 ++ extra
                /\ forall q, q ∈ extra -> q ∈ ps.
Proof.
  induction ps as [|p ps IH]; intros st.
  - exists []. split; [by rewrite app_nil_r|by intros ? ?%elem_of_nil].
  - rewrite count_into_cons.
    destruct (IH (dict_set st p (dict_get st p 0 + 1))) as (extra & -> & Hextra).
    rewrite <- dict_set_keys, <- app_assoc. eexists. split; [done|].
    intros q [Hq|Hq]%elem_of_app.
    + case_bool_decide; [by apply elem_of_nil in Hq|].
      apply list_elem_of_singleton in Hq as ->. left.
    + right. by apply Hextra.
Qed.

Lemma count_into_keys_elem ps : forall st q,
  q ∈ (count_into st ps).*1 <-> q ∈ st.*1 \/ q ∈ ps.
Proof.
  induction ps as [|p ps IH]; intros st q.
  - simpl. rewrite elem_of_nil. tauto.
  - rewrite count_into_cons, IH, <- dict_set_keys, elem_of_app, elem_of_cons.
    case_bool_decide as Hp.
    + rewrite elem_of_nil. split; [tauto|]. intros [?|[->|?]]; tauto.
    + rewrite list_elem_of_singleton. tauto.
Qed.

Lemma count_into_NoDup ps : forall st, NoDup st.*1 -> NoDup (count_into st ps).*1.
Proof.
  induction ps as [|p ps IH]; intros st Hst; [done|].
  rewrite count_into_cons. apply IH. rewrite <- dict_set_keys.
  case_bool_decide as Hp; [by rewrite app_nil_r|].
  apply NoDup_app. split_and!; [done| |apply NoDup_singleton].
  intros x Hx ->%list_elem_of_singleton. done.
Qed.

Lemma count_into_value ps (k : K) v :
  (k, v) ∈ count_into [] ps -> v = occurrences k ps.
Proof.
  intros Hin. rewrite <- (dict_get_lookup _ _ _ (count_into_NoDup ps [] (NoDup_nil_2)) Hin).
  by rewrite count_into_get.
Qed.

(** The keys keep the order of first occurrence: what stands before the
    first occurrence of [p] in [ps] is what stands before [p] among the
    keys. *)
Lemma count_into_first (l1 : list K) p l2 :
  p ∉ l1 ->
  exists K1 K2, (count_into [] (l1 ++ p :: l2)).*1 = K1 ++ p :: K2
                /\ forall q, q ∈ l1 -> q ∈ K1.
Proof.
  intros Hp. rewrite count_into_app, count_into_cons.
  set (d1 := count_into [] l1).
  destruct (count_into_keys l2 (dict_set d1 p (dict_get d1 p 0 + 1))) as (extra & -> & _).
  rewrite <- dict_set_keys.
  rewrite bool_decide_eq_false_2.
  - exists d1.*1, extra. split; [by rewrite <- app_assoc|].
    intros q Hq. apply count_into_keys_elem. by right.
  - intros [Hin|Hin]%count_into_keys_elem; [by apply elem_of_nil in Hin|done].
Qed.

Lemma occurrences_pos (p : K) ps : p ∈ ps <-> 0 < occurrences p ps.
Proof.
  unfold occurrences. split.
  - intros Hin. assert (p ∈ filter (λ q, q = p) ps) as Hf by by apply list_elem_of_filter.
    destruct (filter (λ q, q = p) ps); [by apply elem_of_nil in Hf|simpl; lia].
  - destruct (filter (λ q, q = p) ps) as [|x l] eqn:Hf; [simpl; lia|]. intros _.
    assert (x ∈ filter (λ q, q = p) ps) as [-> ?]%list_elem_of_filter by (rewrite Hf; left).
    done.
Qed.
End DictFacts.

Lemma NoDup_split_unique {A} (l1 l2 k1 k2 : list A) x :
  NoDup (l1 ++ x :: l2) -> l1 ++ x :: l2 = k1 ++ x :: k2 -> l1 = k1.
Proof.
  revert k1. induction l1 as [|a l1 IH]; intros k1 Hnd Heq.
  - destruct k1 as [|b k1]; [done|]. simpl in *. injection Heq as -> ->.
    apply NoDup_cons in Hnd as [Hx _]. exfalso. apply Hx.
    apply elem_of_app. right. left.
  - destruct k1 as [|b k1]; simpl in *.
    + injection Heq as -> _. apply NoDup_cons in Hnd as [Hx _]. exfalso. apply Hx.
      apply elem_of_app. right. left.
    + injection Heq as -> Heq. f_equal. apply NoDup_cons in Hnd as [_ Hnd]. by apply IH.
Qed.

(** ** Sorting and the maximum *)

Section SortFacts.
Context {K : Type}.
Implicit Types (l : list (K * nat)).

Lemma insert_desc_perm x l : insert_desc x l ≡ₚ x :: l.
Proof.
  induction l as [|y l IH]; simpl; [done|].
  destruct (x.2 <? y.2); [|done]. rewrite IH. apply Permutation_swap.
Qed.

Lemma sorted_desc_perm l : sorted_desc l ≡ₚ l.
Proof.
  induction l as [|x l IH]; simpl; [done|]. by rewrite insert_desc_perm, IH.
Qed.

(** The head of the sorted list is the first item of maximal count. *)
Lemma sorted_desc_head l x l' :
  sorted_desc l = x :: l' ->
  exists l1 l2, l = l1 ++ x :: l2
                /\ (forall y, y ∈ l1 -> y.2 < x.2)
                /\ (forall y, y ∈ l2 -> y.2 <= x.2).
Proof.
  revert x l'. induction l as [|a l IH]; intros x l'; simpl; [done|].
  destruct (sorted_desc l) as [|y s] eqn:Hs.
  - assert (l = []) as ->.
    { apply Permutation_nil_r. by rewrite <- (sorted_desc_perm l), Hs. }
    simpl. intros [= <- <-]. exists [], []. split; [done|].
    split; intros ? ?%elem_of_nil; done.
  - destruct (IH _ _ eq_refl) as (l1 & l2 & -> & H1 & H2). simpl.
    destruct (Nat.ltb_spec a.2 y.2).
    + intros [= <- <-]. exists (a :: l1), l2. split; [done|]. split; [|done].
      intros z [->|?]%elem_of_cons; auto.
    + intros [= <- <-]. exists [], (l1 ++ y :: l2). split; [done|].
      split; [by intros ? ?%elem_of_nil|].
      intros z [Hz|[->|Hz]%elem_of_cons]%elem_of_app; [apply H1 in Hz|done|apply H2 in Hz]; lia.
Qed.

Lemma max_from_head (f : K -> nat) k rest :
  (forall y, y ∈ rest -> f y <= f k) -> max_from f k rest = k.
Proof.
  induction rest as [|y rest IH]; intros Hle; simpl; [done|].
  destruct (Nat.ltb_spec (f k) (f y)) as [Hlt|_].
  - specialize (Hle y ltac:(left)). lia.
  - apply IH. intros z Hz. apply Hle. by right.
Qed.
End SortFacts.

(** ** Selecting the pair to merge *)

Section Selection.
Context {K : Type} `{EqDecision K}.
Implicit Types (ps : list K) (d : list (K * nat)).

Lemma NoDup_filter_keys (P : K * nat -> Prop) `{forall x, Decision (P x)} d :
  NoDup d.*1 -> NoDup (filter P d).*1.
Proof.
  induction d as [|x d IH]; [done|]. csimpl. intros [Hx Hnd]%NoDup_cons.
  rewrite filter_cons. destruct (decide (P x)); [|by apply IH].
  csimpl. apply NoDup_cons. split; [|by apply IH].
  intros (y & Hy & [_ Hin]%list_elem_of_filter)%list_elem_of_fmap.
  apply Hx. apply list_elem_of_fmap. by exists y.
Qed.

Lemma count_into_elem ps q :
  q ∈ ps -> (q, occurrences q ps) ∈ count_into [] ps.
Proof.
  intros Hq.
  assert (q ∈ (count_into [] ps).*1) as ([q' v] & -> & Hin)%list_elem_of_fmap
    by (apply count_into_keys_elem; by right).
  simpl. by rewrite <- (count_into_value _ _ _ Hin).
Qed.

(** The head of the sorted statistics is the first pair of highest count. *)
Lemma sorted_head_first ps p c s :
  sorted_desc (count_into [] ps) = (p, c) :: s ->
  c = occurrences p ps /\ first_of_highest_count p ps.
Proof.
  intros (A & B & Hd & HA & HB)%sorted_desc_head.
  assert (Hin : (p, c) ∈ count_into [] ps) by (rewrite Hd, elem_of_app; right; left).
  pose proof (count_into_value _ _ _ Hin) as Hc.
  pose proof (count_into_NoDup ps [] (NoDup_nil_2)) as Hnd.
  split; [done|]. split.
  - intros q. destruct (decide (q ∈ ps)) as [Hq|Hq].
    + apply count_into_elem in Hq. rewrite Hd in Hq.
      apply elem_of_app in Hq as [Hq|[Hq|Hq]%elem_of_cons].
      * apply HA in Hq. simpl in Hq. lia.
      * injection Hq as -> _. done.
      * apply HB in Hq. simpl in Hq. lia.
    + destruct (occurrences q ps) eqn:Ho; [lia|].
      exfalso. apply Hq, occurrences_pos. lia.
  - assert (Hp : p ∈ ps).
    { assert (p ∈ (count_into [] ps).*1) as Hk
        by (apply list_elem_of_fmap; by exists (p, c)).
      apply count_into_keys_elem in Hk as [Hk|Hk]; [by apply elem_of_nil in Hk|done]. }
    apply list_elem_of_split_l in Hp as (l1 & l2 & -> & Hl1).
    exists l1, l2. split; [done|]. intros q Hq.
    destruct (count_into_first l1 p l2 Hl1) as (K1 & K2 & HK & Hsub).
    rewrite Hd in Hnd, HK. rewrite fmap_app, fmap_cons in Hnd, HK. simpl in Hnd, HK.
    apply NoDup_split_unique in HK as <-; [|done].
    apply Hsub in Hq as ([q' v] & -> & Hv)%list_elem_of_fmap. simpl.
    assert (Hv' : (q', v) ∈ count_into [] (l1 ++ p :: l2))
      by (rewrite Hd, elem_of_app; by left).
    rewrite <- (count_into_value _ _ _ Hv'), <- Hc. by apply HA in Hv.
Qed.

(** [max(stats, key=stats.get)] on the statistics above a threshold is the
    key at the head of the sorted statistics. *)
Lemma py_max_sorted (t : nat) ps p :
  let stats := filter (fun kv : K * nat => t < kv.2) (sorted_desc (count_into [] ps)) in
  py_max stats.*1 (fun k => dict_get stats k 0) = Done p ->
  exists c s, sorted_desc (count_into [] ps) = (p, c) :: s /\ t < c.
Proof.
  intros stats. subst stats.
  pose proof (count_into_NoDup ps [] (NoDup_nil_2)) as Hnd.
  rewrite <- (sorted_desc_perm (count_into [] ps)) in Hnd.
  destruct (sorted_desc (count_into [] ps)) as [|[k c] s] eqn:Hs; [done|].
  apply sorted_desc_head in Hs as Hhead. destruct Hhead as (A & B & Hd & HA & HB).
  assert (Hle : forall y, y ∈ (k, c) :: s -> y.2 <= c).
  { intros y Hy. rewrite <- Hs, sorted_desc_perm, Hd in Hy.
    apply elem_of_app in Hy as [Hy|[->|Hy]%elem_of_cons];
      [apply HA in Hy|done|apply HB in Hy]; simpl in *; lia. }
  set (stats := filter (fun kv : K * nat => t < kv.2) ((k, c) :: s)).
  assert (Hget : forall y v, (y, v) ∈ stats -> dict_get stats y 0 = v).
  { intros y v Hy. apply dict_get_lookup; [|done]. by apply NoDup_filter_keys. }
  subst stats. rewrite filter_cons in *. destruct (decide (t < (k, c).2)) as [Hlt|Hge].
  - rewrite fmap_cons.
    set (f := fun k0 => dict_get ((k, c) :: filter (fun kv : K * nat => t < kv.2) s) k0 0).
    assert (Hf : forall y v, (y, v) ∈ (k, c) :: filter (fun kv : K * nat => t < kv.2) s ->
                             f y = v) by (intros y v Hy; by apply Hget).
    clearbody f. cbn [py_max]. intros [= <-]. exists c, s. split; [|done].
    f_equal. f_equal. symmetry. apply max_from_head.
    intros y ([y' v] & -> & Hy)%list_elem_of_fmap.
    cbn [fst]. rewrite (Hf y' v) by by right.
    rewrite (Hf k c) by left.
    apply list_elem_of_filter in Hy as [_ Hy]. apply (Hle (y', v)). by right.
  - destruct (filter (fun kv : K * nat => t < kv.2) s) as [|y l] eqn:Hf; [done|].
    assert (y ∈ filter (fun kv : K * nat => t < kv.2) s) as [Hy1 Hy2]%list_elem_of_filter
      by (rewrite Hf; left).
    specialize (Hle y ltac:(by right)). simpl in Hge. lia.
Qed.

Lemma py_max_first (t : nat) ps p :
  let stats := filter (fun kv : K * nat => t < kv.2) (sorted_desc (count_into [] ps)) in
  py_max stats.*1 (fun k => dict_get stats k 0) = Done p ->
  t < occurrences p ps /\ first_of_highest_count p ps.
Proof.
  intros stats (c & s & Hs & Hc)%py_max_sorted.
  apply sorted_head_first in Hs as [-> ?]. done.
Qed.

(** Nothing is selected exactly when no pair occurs more than [t] times;
    [max] then raises [ValueError]. *)
Lemma py_max_none (t : nat) ps :
  let stats := filter (fun kv : K * nat => t < kv.2) (sorted_desc (count_into [] ps)) in
  (py_max stats.*1 (fun k => dict_get stats k 0) = Raise ValueError
   <-> forall q, occurrences q ps <= t)
  /\ (forall e, py_max stats.*1 (fun k => dict_get stats k 0) = Raise e -> e = ValueError)
  /\ py_max stats.*1 (fun k => dict_get stats k 0) <> OutOfFuel.
Proof.
  intros stats.
  assert (Hnil : stats = [] <-> forall q, occurrences q ps <= t).
  { split.
    - intros Hs q. destruct (decide (q ∈ ps)) as [Hq|Hq].
      + apply count_into_elem in Hq. rewrite <- sorted_desc_perm in Hq.
        destruct (decide (t < occurrences q ps)) as [Hlt|]; [|lia].
        assert (Hin : (q, occurrences q ps) ∈ stats) by by apply list_elem_of_filter.
        rewrite Hs in Hin. by apply elem_of_nil in Hin.
      + destruct (occurrences q ps) eqn:Ho; [lia|].
        exfalso. apply Hq, occurrences_pos. lia.
    - intros Hall. destruct stats as [|[q v] l] eqn:Hs; [done|].
      assert (Hin : (q, v) ∈ stats) by (rewrite Hs; left).
      apply list_elem_of_filter in Hin as [Hlt Hin]. rewrite sorted_desc_perm in Hin.
      apply count_into_value in Hin. specialize (Hall q). simpl in Hlt. lia. }
  rewrite <- Hnil. destruct stats as [|[q v] l]; csimpl.
  - split_and!; [done|by intros e [= <-]|done].
  - split_and!; [split; done|done|done].
Qed.
End Selection.

Lemma pair_counts_eq (cs : list (list Z)) :
  Tokenizer.pair_counts cs = sorted_desc (count_into [] (concat (map adjacent cs))).
Proof.
  unfold Tokenizer.pair_counts. f_equal.
  generalize (@nil ((Z * Z) * nat)).
  induction cs as [|c cs IH]; intros st; simpl; [done|].
  by rewrite IH, count_into_app.
Qed.

Lemma select_pair_Some cs p :
  Tokenizer.select_pair cs = Some p ->
  1 < occurrences p (concat (map adjacent cs))
  /\ first_of_highest_count p (concat (map adjacent cs)).
Proof.
  unfold Tokenizer.select_pair. rewrite pair_counts_eq.
  destruct (py_max _ _) as [p'| |] eqn:Hmax; [|done..].
  intros [= ->]. by apply py_max_first in Hmax.
Qed.

Lemma select_pair_None cs :
  Tokenizer.select_pair cs = None
  <-> forall q, occurrences q (concat (map adjacent cs)) <= 1.
Proof.
  unfold Tokenizer.select_pair. rewrite pair_counts_eq.
  destruct (py_max_none 1 (concat (map adjacent cs))) as (Hiff & Hexn & Hfuel).
  rewrite <- Hiff.
  destruct (py_max _ _) as [p'|e|] eqn:Hmax; [done| |done].
  rewrite (Hexn e eq_refl). done.
Qed.

Section SelectionMore.
Context {K : Type} `{EqDecision K}.
Implicit Types (ps : list K).

Lemma first_split_unique (l1 l2 k1 k2 : list K) (x y : K) :
  l1 ++ x :: l2 = k1 ++ y :: k2 -> x ∉ k1 -> y ∉ l1 -> x = y.
Proof.
  revert k1. induction l1 as [|a l1 IH]; intros [|b k1] Heq Hx Hy; simpl in Heq.
  - by injection Heq.
  - injection Heq as -> _. exfalso. apply Hx. left.
  - injection Heq as -> _. exfalso. apply Hy. left.
  - injection Heq as -> Heq. apply not_elem_of_cons in Hx as [_ Hx].
    apply not_elem_of_cons in Hy as [_ Hy]. by apply (IH k1).
Qed.

(** At most one pair is the first of highest count. *)
Lemma first_of_highest_count_unique p p' ps :
  first_of_highest_count p ps -> first_of_highest_count p' ps -> p = p'.
Proof.
  intros (Hmax & l1 & l2 & Hps & Hl1) (Hmax' & k1 & k2 & Hps' & Hk1).
  pose proof (Hmax p') as H1. pose proof (Hmax' p) as H2.
  apply (first_split_unique l1 l2 k1 k2); [by rewrite <- Hps|..].
  - intros Hin%Hk1. lia.
  - intros Hin%Hl1. lia.
Qed.

(** The sorted statistics of a non-empty list of pairs have a head. *)
Lemma sorted_head_exists ps :
  ps <> [] -> exists p c s, sorted_desc (count_into [] ps) = (p, c) :: s.
Proof.
  intros Hne. destruct (sorted_desc (count_into [] ps)) as [|[p c] s] eqn:Hs; [|by eauto].
  destruct ps as [|q ps]; [done|].
  assert (Hin : (q, occurrences q (q :: ps)) ∈ count_into [] (q :: ps))
    by (apply count_into_elem; left).
  rewrite <- sorted_desc_perm, Hs in Hin. by apply elem_of_nil in Hin.
Qed.

Lemma first_of_highest_count_head ps p :
  first_of_highest_count p ps ->
  exists s, sorted_desc (count_into [] ps) = (p, occurrences p ps) :: s.
Proof.
  intros Hp. assert (Hne : ps <> []).
  { destruct Hp as (_ & l1 & l2 & -> & _). by destruct l1. }
  destruct (sorted_head_exists ps Hne) as (p' & c & s & Hs).
  destruct (sorted_head_first _ _ _ _ Hs) as [-> Hp'].
  rewrite (first_of_highest_count_unique p p' ps Hp Hp'). by exists s.
Qed.

(** [max] returns a pair exactly when it is the first of highest count and
    occurs more than [t] times. *)
Lemma py_max_Done (t : nat) ps p :
  let stats := filter (fun kv : K * nat => t < kv.2) (sorted_desc (count_into [] ps)) in
  py_max stats.*1 (fun k => dict_get stats k 0) = Done p
  <-> t < occurrences p ps /\ first_of_highest_count p ps.
Proof.
  intros stats. split; [apply py_max_first|]. intros [Hlt Hp].
  destruct (py_max_none t ps) as (Hiff & Hexn & Hfuel). fold stats in Hiff, Hexn, Hfuel.
  destruct (py_max stats.*1 _) as [p'|e|] eqn:Hmax; [| |done].
  - apply py_max_first in Hmax as [_ Hp'].
    by rewrite (first_of_highest_count_unique p p' ps Hp Hp').
  - pose proof (Hexn e eq_refl) as ->. pose proof (proj1 Hiff eq_refl p). lia.
Qed.

Lemma py_max_selects (t : nat) ps q :
  let stats := filter (fun kv : K * nat => t < kv.2) (sorted_desc (count_into [] ps)) in
  t < occurrences q ps ->
  exists p, py_max stats.*1 (fun k => dict_get stats k 0) = Done p.
Proof.
  intros stats Hq.
  destruct (py_max_none t ps) as (Hiff & Hexn & Hfuel). fold stats in Hiff, Hexn, Hfuel.
  destruct (py_max stats.*1 _) as [p'|e|] eqn:Hmax; [by eauto| |done].
  pose proof (Hexn e eq_refl) as ->. pose proof (proj1 Hiff eq_refl q). lia.
Qed.

(** In a tie the selected pair is met before the other pair. *)
Lemma first_of_highest_count_tie p q ps :
  first_of_highest_count p ps -> q <> p -> occurrences q ps = occurrences p ps ->
  exists l1 l2, ps = l1 ++ p :: l2 /\ (p ∉ l1) /\ (q ∉ l1).
Proof.
  intros (Hmax & l1 & l2 & Hps & Hl1) Hne Hocc. exists l1, l2.
  split_and!; [done|intros Hin%Hl1; lia|intros Hin%Hl1; lia].
Qed.
End SelectionMore.

Lemma select_pair_iff cs p :
  Tokenizer.select_pair cs = Some p
  <-> 1 < occurrences p (concat (map adjacent cs))
      /\ first_of_highest_count p (concat (map adjacent cs)).
Proof.
  split; [apply select_pair_Some|]. intros Hp.
  apply (py_max_Done 1) in Hp.
  unfold Tokenizer.select_pair. rewrite pair_counts_eq. by rewrite Hp.
Qed.

(** C3: a pair is selected whenever some pair occurs more than once, and
    the pair selected is exactly the one that has the highest count and,
    among the pairs of that count, is met first when the chunks are read in
    order, each from left to right: every pair that first occurs before it
    has a strictly lower count, so a pair that ties with it is not met
    before it.  This holds for the selection over chunks and for
    [max(stats, key=stats.get)] on the statistics of the Part 4 loop; the
    statistics of Part 3 have a head whenever the text has two symbols, and
    their head is that pair with its count. *)
Theorem first_encountered_tie_break :
  (forall (cs : list (list Z)) p,
      Tokenizer.select_pair cs = Some p
      <-> 1 < occurrences p (concat (map adjacent cs))
          /\ first_of_highest_count p (concat (map adjacent cs)))
  /\ (forall (cs : list (list Z)) q,
      1 < occurrences q (concat (map adjacent cs)) ->
      exists p, Tokenizer.select_pair cs = Some p)
  /\ (forall (cs : list (list Z)) p q,
      Tokenizer.select_pair cs = Some p -> q <> p ->
      occurrences q (concat (map adjacent cs)) = occurrences p (concat (map adjacent cs)) ->
      exists l1 l2, concat (map adjacent cs) = l1 ++ p :: l2 /\ (p ∉ l1) /\ (q ∉ l1))
  /\ (forall (chars : list string) p,
      py_max (Part4.get_stats chars).*1 (fun k => dict_get (Part4.get_stats chars) k 0)
      = Done p
      <-> 1 < occurrences p (adjacent chars) /\ first_of_highest_count p (adjacent chars))
  /\ (forall (chars : list string) q,
      1 < occurrences q (adjacent chars) ->
      exists p, py_max (Part4.get_stats chars).*1
                  (fun k => dict_get (Part4.get_stats chars) k 0) = Done p)
  /\ (forall (chars : list Z) p n rest,
      Part3.get_stats chars = (p, n) :: rest ->
      n = occurrences p (adjacent chars) /\ first_of_highest_count p (adjacent chars))
  /\ (forall (chars : list Z) p,
      first_of_highest_count p (adjacent chars) ->
      exists rest, Part3.get_stats chars = (p, occurrences p (adjacent chars)) :: rest)
  /\ (forall (chars : list Z),
      2 <= length chars -> exists p n rest, Part3.get_stats chars = (p, n) :: rest).
Proof.
  split_and!.
  - apply select_pair_iff.
  - intros cs q Hq. destruct (Tokenizer.select_pair cs) as [p|] eqn:Hsel; [by eauto|].
    pose proof (proj1 (select_pair_None cs) Hsel q). lia.
  - intros cs p q [_ Hp]%select_pair_Some Hne Hocc.
    by apply (first_of_highest_count_tie p q).
  - intros chars p. apply (py_max_Done 1).
  - intros chars q. apply (py_max_selects 1).
  - intros chars p n rest Hhead. by apply sorted_head_first in Hhead.
  - intros chars p. apply first_of_highest_count_head.
  - intros chars Hlen. apply sorted_head_exists.
    destruct chars as [|a [|b chars]]; [simpl in Hlen; lia..|done].
Qed.

Lemma first_encountered_tie_break_witness :
  Tokenizer.select_pair [[240; 159; 152; 132; 240; 159; 152; 132; 32]%Z; [97; 98; 97; 98]%Z]
  = Some (240, 159)%Z
  /\ 1 < occurrences (240, 159)%Z
          (concat (map adjacent [[240; 159; 152; 132; 240; 159; 152; 132; 32]%Z; [97; 98; 97; 98]%Z]))
  /\ first_of_highest_count (240, 159)%Z
       (concat (map adjacent [[240; 159; 152; 132; 240; 159; 152; 132; 32]%Z; [97; 98; 97; 98]%Z])).
Proof.
  split; [by vm_compute|].
  apply (proj1 (proj1 first_encountered_tie_break
                  [[240; 159; 152; 132; 240; 159; 152; 132; 32]%Z; [97; 98; 97; 98]%Z]
                  (240, 159)%Z)).
  by vm_compute.
Defined.

(** ** Training keeps the model consistent *)

Lemma elem_of_concat_map {A B} (f : A -> list B) (l : list A) (x : B) :
  x ∈ concat (map f l) <-> exists y, y ∈ l /\ x ∈ f y.
Proof.
  induction l as [|a l IH]; simpl.
  - rewrite elem_of_nil. split; [done|]. by intros (y & ?%elem_of_nil & _).
  - rewrite elem_of_app, IH. split.
    + intros [Hx|(y & Hy & Hx)]; [exists a; split; [left|done]|exists y; split; [by right|done]].
    + intros (y & [->|Hy]%elem_of_cons & Hx); [by left|right; by exists y].
Qed.

Lemma adjacent_split {A} (c : list A) l r :
  (l, r) ∈ adjacent c -> exists c1 c2, c = c1 ++ l :: r :: c2.
Proof.
  induction c as [|x c IH]; [by intros ?%elem_of_nil|].
  destruct c as [|y c]; [by intros ?%elem_of_nil|].
  cbn [adjacent]. intros [[= -> ->]|Hin]%elem_of_cons.
  - by exists [], c.
  - destruct (IH Hin) as (c1 & c2 & ->). by exists (x :: c1), c2.
Qed.

Lemma rewrite_pairs_cons2 {A} `{EqDecision A} (x y : A) rest pair new :
  rewrite_pairs (x :: y :: rest) pair new
  = if bool_decide (x = pair.1) && bool_decide (y = pair.2)
    then new :: rewrite_pairs rest pair new
    else x :: rewrite_pairs (y :: rest) pair new.
Proof. done. Qed.

Lemma rewrite_pairs_elem {A} `{EqDecision A} (c : list A) pair new x :
  x ∈ rewrite_pairs c pair new -> x = new \/ x ∈ c.
Proof.
  induction c as [c IH] using (induction_ltof1 _ (@length A)). unfold ltof in IH.
  destruct c as [|a [|b rest]]; [by right|by right|].
  rewrite rewrite_pairs_cons2.
  destruct (bool_decide (a = pair.1) && bool_decide (b = pair.2)).
  - intros [->|Hx]%elem_of_cons; [by left|].
    apply IH in Hx as [->|Hx]; [by left| |simpl; lia]. right. by do 2 right.
  - intros [->|Hx]%elem_of_cons; [right; left|].
    apply IH in Hx as [->|Hx]; [by left| |simpl; lia]. right. by right.
Qed.

Section ExpandFacts.
Implicit Types (v : gmap Z (list Z)) (c syms : list Z).

Lemma expand_cons v s syms :
  expand v (s :: syms) = Tokenizer.expansion v s ++ expand v syms.
Proof. done. Qed.

Lemma expand_app v c1 c2 : expand v (c1 ++ c2) = expand v c1 ++ expand v c2.
Proof. apply bind_app. Qed.

Lemma expand_concat v (cs : list (list Z)) :
  expand v (concat cs) = concat (expand v <$> cs).
Proof.
  induction cs as [|c cs IH]; [done|]. csimpl. by rewrite expand_app, IH.
Qed.

(** A merged symbol stands for the same bytes as the pair it replaces. *)
Lemma expand_rewrite v l r new c :
  v !! new = Some (Tokenizer.expansion v l ++ Tokenizer.expansion v r) ->
  expand v (rewrite_pairs c (l, r) new) = expand v c.
Proof.
  intros Hnew.
  induction c as [c IH] using (induction_ltof1 _ (@length Z)). unfold ltof in IH.
  destruct c as [|a [|b rest]]; [done|done|].
  rewrite rewrite_pairs_cons2.
  destruct (bool_decide (a = (l, r).1) && bool_decide (b = (l, r).2)) eqn:Hb.
  - apply andb_true_iff in Hb as [->%bool_decide_eq_true ->%bool_decide_eq_true].
    rewrite !expand_cons, IH by (simpl; lia). cbn [fst snd].
    unfold Tokenizer.expansion at 1. rewrite Hnew. simpl. by rewrite <- app_assoc.
  - rewrite !(expand_cons _ a), IH by (simpl; lia). done.
Qed.

Lemma expansion_insert_ne v id e s :
  s <> id -> Tokenizer.expansion (<[id := e]> v) s = Tokenizer.expansion v s.
Proof. intros Hne. unfold Tokenizer.expansion. by rewrite lookup_insert_ne. Qed.

Lemma expand_insert_ne v id e c :
  id ∉ c -> expand (<[id := e]> v) c = expand v c.
Proof.
  induction c as [|s c IH]; [done|]. intros [Hs Hc]%not_elem_of_cons.
  by rewrite !expand_cons, IH, expansion_insert_ne.
Qed.

Lemma expand_alphabet v c :
  (forall s, s ∈ c -> v !! s = Some [s]) -> expand v c = c.
Proof.
  induction c as [|s c IH]; [done|]. intros Hc.
  rewrite expand_cons, IH by (intros; apply Hc; by right).
  unfold Tokenizer.expansion. rewrite Hc by left. done.
Qed.
End ExpandFacts.

Lemma unit_vocabulary_lookup alphabet s :
  Tokenizer.unit_vocabulary alphabet !! s = if bool_decide (s ∈ alphabet) then Some [s] else None.
Proof.
  unfold Tokenizer.unit_vocabulary. induction alphabet as [|a al IH]; csimpl.
  - by rewrite lookup_empty.
  - destruct (decide (a = s)) as [->|Hne].
    + rewrite lookup_insert_eq. by rewrite bool_decide_eq_true_2 by left.
    + rewrite lookup_insert_ne by done. rewrite IH.
      apply (f_equal (fun b : bool => if b then Some [s] else None)).
      apply bool_decide_ext. rewrite elem_of_cons. split; [by right|by intros [->|?]].
Qed.

Section Training.
Variables (alphabet : list Z) (origin : list (list Z)).
Hypothesis Halphabet : Forall (fun s => (s < 256)%Z) alphabet.

Lemma consistent_init :
  Forall (Forall (fun s => s ∈ alphabet)) origin ->
  consistent alphabet origin
    (Tokenizer.Model origin (Tokenizer.unit_vocabulary alphabet) []).
Proof.
  intros Horigin. rewrite Forall_forall in Horigin. rewrite Forall_forall in Halphabet.
  split; cbn [Tokenizer.vocabulary Tokenizer.chunks Tokenizer.merges].
  - intros s Hs. by rewrite unit_vocabulary_lookup, bool_decide_eq_true_2.
  - intros s. rewrite unit_vocabulary_lookup. unfold Tokenizer.next_id. simpl.
    case_bool_decide as Hs.
    + split; [by left|by eexists].
    + split; [by intros [? ?]|]. intros [?|?]; [done|lia].
  - intros c s Hc Hs. rewrite unit_vocabulary_lookup, bool_decide_eq_true_2; [by eexists|].
    specialize (Horigin c Hc). rewrite Forall_forall in Horigin. by apply Horigin.
  - intros k l r Hk. by rewrite lookup_nil in Hk.
  - induction origin as [|c cs IH]; [done|]. csimpl. f_equal.
    + apply expand_alphabet. intros s Hs.
      rewrite unit_vocabulary_lookup, bool_decide_eq_true_2; [done|].
      specialize (Horigin c ltac:(left)). rewrite Forall_forall in Horigin. by apply Horigin.
    + apply IH. intros c' Hc'. apply Horigin. by right.
  - intros s bytes Hs. rewrite unit_vocabulary_lookup. case_bool_decide as Hin; [|done].
    apply Halphabet in Hin. lia.
Qed.

(** The new symbol is not in the vocabulary yet. *)
Lemma next_id_fresh m :
  consistent alphabet origin m ->
  Tokenizer.vocabulary m !! Tokenizer.next_id m = None.
Proof.
  intros Hm. apply eq_None_not_Some. intros [Hin|Hin]%(consistent_dom _ _ _ Hm).
  - rewrite Forall_forall in Halphabet. apply Halphabet in Hin.
    unfold Tokenizer.next_id in Hin. lia.
  - lia.
Qed.

Lemma consistent_step target m m' :
  consistent alphabet origin m ->
  Tokenizer.train_step target m = Some m' ->
  consistent alphabet origin m'
  /\ size (Tokenizer.vocabulary m') = S (size (Tokenizer.vocabulary m))
  /\ length (Tokenizer.merges m') = S (length (Tokenizer.merges m))
  /\ total_symbols (Tokenizer.chunks m') < total_symbols (Tokenizer.chunks m).
Proof.
  intros Hm. unfold Tokenizer.train_step.
  destruct (target <=? size (Tokenizer.vocabulary m)); [done|].
  destruct (Tokenizer.select_pair (Tokenizer.chunks m)) as [[l r]|] eqn:Hsel; [|done].
  intros [= <-]. cbn [fst snd].
  apply select_pair_Some in Hsel as [Hocc _].
  assert (Hin : (l, r) ∈ concat (map adjacent (Tokenizer.chunks m)))
    by (apply occurrences_pos; lia).
  apply elem_of_concat_map in Hin as (c0 & Hc0 & Hadj).
  destruct (adjacent_split _ _ _ Hadj) as (c1 & c2 & Hc0eq).
  pose proof (next_id_fresh m Hm) as Hfresh.
  set (id := Tokenizer.next_id m) in *.
  assert (Hl : is_Some (Tokenizer.vocabulary m !! l)).
  { apply (consistent_symbols _ _ _ Hm c0); [done|]. rewrite Hc0eq, elem_of_app. right. left. }
  assert (Hr : is_Some (Tokenizer.vocabulary m !! r)).
  { apply (consistent_symbols _ _ _ Hm c0); [done|].
    rewrite Hc0eq, elem_of_app. right. right. left. }
  assert (Hne : forall s, is_Some (Tokenizer.vocabulary m !! s) -> s <> id).
  { intros s [x Hs] ->. congruence. }
  assert (Hin_ne : forall c, c ∈ Tokenizer.chunks m -> id ∉ c).
  { intros c Hc Hid. apply (Hne id); [|done]. by apply (consistent_symbols _ _ _ Hm c). }
  split_and!.
  - split; cbn [Tokenizer.vocabulary Tokenizer.chunks Tokenizer.merges].
    + intros s Hs. rewrite lookup_insert_ne.
      * by apply (consistent_alphabet _ _ _ Hm).
      * intros <-. apply (Hne id); [|done]. apply (consistent_dom _ _ _ Hm). by left.
    + intros s. unfold Tokenizer.next_id. cbn [Tokenizer.merges].
      rewrite length_app. simpl.
      destruct (decide (s = id)) as [->|Hs].
      * rewrite lookup_insert_eq. split; [|by eexists]. intros _. right.
        unfold id, Tokenizer.next_id. lia.
      * rewrite lookup_insert_ne by done.  rewrite (consistent_dom _ _ _ Hm).
        unfold id, Tokenizer.next_id in *. split; (intros [?|?]; [by left|right; lia]).
    + intros c s (c' & -> & Hc')%list_elem_of_fmap Hs.
      apply rewrite_pairs_elem in Hs as [->|Hs].
      * rewrite lookup_insert_eq. by eexists.
      * rewrite lookup_insert_ne; [by apply (consistent_symbols _ _ _ Hm c')|].
        intros <-. by apply (Hin_ne c').
    + intros k l0 r0 Hk.
      rewrite !expansion_insert_ne.
      * apply lookup_app_Some in Hk as [Hk|[Hlen Hk]].
        -- destruct (consistent_merges _ _ _ Hm k l0 r0 Hk) as (Hl0 & Hr0 & Hv).
           apply lookup_lt_Some in Hk.
           rewrite !lookup_insert_ne; [done|unfold id, Tokenizer.next_id; lia| |];
             apply not_eq_sym; by apply Hne.
        -- destruct (k - length (Tokenizer.merges m)) as [|n] eqn:Hkn;
             [|by rewrite lookup_cons, lookup_nil in Hk].
           injection Hk as <- <-.
           replace (256 + Z.of_nat k)%Z with id by (unfold id, Tokenizer.next_id; lia).
           rewrite lookup_insert_eq.
           rewrite !lookup_insert_ne by (apply not_eq_sym; by apply Hne). done.
      * apply lookup_app_Some in Hk as [Hk|[Hlen Hk]].
        -- apply Hne. by apply (consistent_merges _ _ _ Hm k l0 r0).
        -- destruct (k - length (Tokenizer.merges m)) as [|n];
             [|by rewrite lookup_cons, lookup_nil in Hk].
           injection Hk as <- <-. by apply Hne.
      * apply lookup_app_Some in Hk as [Hk|[Hlen Hk]].
        -- apply Hne. by apply (consistent_merges _ _ _ Hm k l0 r0).
        -- destruct (k - length (Tokenizer.merges m)) as [|n];
             [|by rewrite lookup_cons, lookup_nil in Hk].
           injection Hk as <- <-. by apply Hne.
    + rewrite <- (consistent_origin _ _ _ Hm).
      rewrite <- list_fmap_compose. apply list_fmap_ext.
      intros i c Hc. simpl.
      rewrite expand_rewrite.
      * apply expand_insert_ne. apply Hin_ne. by apply list_elem_of_lookup_2 in Hc.
      * rewrite lookup_insert_eq.
        rewrite !expansion_insert_ne by by apply Hne. done.
    + intros s bytes Hs. destruct (decide (s = id)) as [->|Hsne].
      * rewrite lookup_insert_eq. intros [= <-].
        exists (expand (Tokenizer.vocabulary m) c0), (expand (Tokenizer.vocabulary m) c1), (expand (Tokenizer.vocabulary m) c2). split.
        -- rewrite <- (consistent_origin _ _ _ Hm). apply list_elem_of_fmap. by exists c0.
        -- rewrite Hc0eq, expand_app, !expand_cons. by rewrite <- !app_assoc.
      * rewrite lookup_insert_ne by done. by apply (consistent_pieces _ _ _ Hm).
  - cbn [Tokenizer.vocabulary]. by apply map_size_insert_None.
  - cbn [Tokenizer.merges]. rewrite length_app. simpl. lia.
  - cbn [Tokenizer.chunks]. apply rewrite_chunks_shorter.
    apply Exists_exists. by exists c0.
Qed.

Lemma consistent_loop target n : forall m,
  consistent alphabet origin m ->
  consistent alphabet origin (Tokenizer.train_loop n target m).
Proof.
  induction n as [|n IH]; intros m Hm; [done|]. simpl.
  destruct (Tokenizer.train_step target m) as [m'|] eqn:Hstep; [|done].
  apply IH. by apply (consistent_step target m m').
Qed.

(** With [target - size] rounds the loop ends in a terminal state. *)
Lemma train_loop_terminal target n : forall m,
  consistent alphabet origin m ->
  target - size (Tokenizer.vocabulary m) <= n ->
  Tokenizer.train_step target (Tokenizer.train_loop n target m) = None.
Proof.
  induction n as [|n IH]; intros m Hm Hn.
  - simpl. unfold Tokenizer.train_step.
    destruct (Nat.leb_spec target (size (Tokenizer.vocabulary m))); [done|lia].
  - simpl. destruct (Tokenizer.train_step target m) as [m'|] eqn:Hstep; [|done].
    destruct (consistent_step target m m' Hm Hstep) as (Hm' & Hsize & _).
    apply IH; [done|lia].
Qed.
End Training.

(** ** Encoding by rank *)

Lemma rank_of_lookup ms p k : Tokenizer.rank_of ms p = Some k -> ms !! k = Some p.
Proof.
  revert k. induction ms as [|q ms IH]; intros k; simpl; [done|].
  destruct (decide (q = p)) as [->|Hne]; [by intros [= <-]|].
  destruct (Tokenizer.rank_of ms p) as [k'|]; [|done].
  intros [= <-]. by apply IH.
Qed.

Lemma lower_fold ms ps : forall seen best,
  lowest_of ms seen best ->
  lowest_of ms (seen ++ ps) (fold_left (Tokenizer.lower ms) ps best).
Proof.
  induction ps as [|q ps IH]; intros seen best Hbest; [by rewrite app_nil_r|].
  simpl. replace (seen ++ q :: ps) with ((seen ++ [q]) ++ ps) by by rewrite <- app_assoc.
  apply IH. unfold Tokenizer.lower.
  destruct (Tokenizer.rank_of ms q) as [k|] eqn:Hq.
  - destruct best as [[k0 p0]|].
    + destruct Hbest as (Hp0 & Hin & Hmin). destruct (Nat.ltb_spec k k0).
      * split_and!; [done|apply elem_of_app; right; left|].
        intros q' k' [Hq'| ->%list_elem_of_singleton]%elem_of_app Hk'.
        -- specialize (Hmin _ _ Hq' Hk'). lia.
        -- rewrite Hq in Hk'. injection Hk' as <-. lia.
      * split_and!; [done|apply elem_of_app; by left|].
        intros q' k' [Hq'| ->%list_elem_of_singleton]%elem_of_app Hk'.
        -- by apply (Hmin q').
        -- rewrite Hq in Hk'. injection Hk' as <-. lia.
    + split_and!; [done|apply elem_of_app; right; left|].
      intros q' k' [Hq'| ->%list_elem_of_singleton]%elem_of_app Hk'.
      * rewrite (Hbest _ Hq') in Hk'. done.
      * rewrite Hq in Hk'. injection Hk' as <-. lia.
  - destruct best as [[k0 p0]|].
    + destruct Hbest as (Hp0 & Hin & Hmin). split_and!; [done|apply elem_of_app; by left|].
      intros q' k' [Hq'| ->%list_elem_of_singleton]%elem_of_app Hk'.
      * by apply (Hmin q').
      * rewrite Hq in Hk'. done.
    + intros q' [Hq'| ->%list_elem_of_singleton]%elem_of_app; [by apply Hbest|done].
Qed.

Lemma lowest_rank_spec ms syms :
  lowest_of ms (adjacent syms) (Tokenizer.lowest_rank ms syms).
Proof.
  apply (lower_fold ms (adjacent syms) [] None). by intros q ?%elem_of_nil.
Qed.

(** C9: the encoder picks, among the adjacent pairs present in the chunk,
    the one of lowest rank in the merge table, whatever the counts of the
    pairs in the chunk: the pair it picks is present, its rank is its
    position in the table, and no pair present has a lower rank; nothing is
    picked exactly when no pair present is in the table.  With the table
    [(a, b); (b, c)] the chunk [a b c] of bytes becomes [256 c], and in
    [b c b c a b] the pair [(a, b)] is applied first although [(b, c)]
    occurs twice. *)
Theorem encode_uses_rank :
  (forall ms syms k p,
      Tokenizer.lowest_rank ms syms = Some (k, p) ->
      p ∈ adjacent syms /\ Tokenizer.rank_of ms p = Some k /\ ms !! k = Some p
      /\ (forall q k', q ∈ adjacent syms -> Tokenizer.rank_of ms q = Some k' -> k <= k')
      /\ (forall n, Tokenizer.encode_rounds (S n) ms syms
                    = Tokenizer.encode_rounds n ms
                        (rewrite_pairs syms p (256 + Z.of_nat k)%Z)))
  /\ (forall ms syms,
      Tokenizer.lowest_rank ms syms = None ->
      (forall q, q ∈ adjacent syms -> Tokenizer.rank_of ms q = None)
      /\ Tokenizer.encode_chunk ms syms = syms)
  /\ (forall a b c,
      is_byte a -> is_byte b -> is_byte c ->
      Tokenizer.lowest_rank [(a, b); (b, c)] [a; b; c] = Some (0, (a, b))
      /\ Tokenizer.encode_chunk [(a, b); (b, c)] [a; b; c] = [256; c]%Z)
  /\ (Tokenizer.lowest_rank [(97, 98); (98, 99)]%Z [98; 99; 98; 99; 97; 98]%Z
      = Some (0, (97, 98)%Z)
      /\ occurrences (97, 98)%Z (adjacent [98; 99; 98; 99; 97; 98]%Z) = 1
      /\ occurrences (98, 99)%Z (adjacent [98; 99; 98; 99; 97; 98]%Z) = 2
      /\ Tokenizer.encode_chunk [(97, 98); (98, 99)]%Z [98; 99; 98; 99; 97; 98]%Z
         = [257; 257; 256]%Z).
Proof.
  split_and!.
  - intros ms syms k p Hlow. pose proof (lowest_rank_spec ms syms) as Hspec.
    rewrite Hlow in Hspec. destruct Hspec as (Hrank & Hin & Hmin).
    split_and!; [done|done|by apply rank_of_lookup|done|].
    intros n. cbn [Tokenizer.encode_rounds]. by rewrite Hlow.
  - intros ms syms Hlow. pose proof (lowest_rank_spec ms syms) as Hspec.
    rewrite Hlow in Hspec. split; [done|].
    unfold Tokenizer.encode_chunk. destruct (length syms); simpl; [done|by rewrite Hlow].
  - intros a b c Ha Hb Hc. unfold is_byte in *.
    assert (H1 : Tokenizer.lowest_rank [(a, b); (b, c)] [a; b; c] = Some (0, (a, b))).
    { unfold Tokenizer.lowest_rank, Tokenizer.lower. simpl.
      repeat case_decide; simplify_eq; done. }
    split; [done|].
    unfold Tokenizer.encode_chunk. cbn [length Tokenizer.encode_rounds]. rewrite H1.
    rewrite rewrite_pairs_cons2. cbn [fst snd].
    rewrite !bool_decide_eq_true_2 by done. cbn [andb rewrite_pairs].
    unfold Tokenizer.lowest_rank, Tokenizer.lower. simpl.
    repeat case_decide; simplify_eq; first [done|lia].
  - by vm_compute.
  - by vm_compute.
  - by vm_compute.
  - by vm_compute.
Qed.

Lemma encode_uses_rank_witness :
  (is_byte 97 /\ is_byte 98 /\ is_byte 99)
  /\ Tokenizer.lowest_rank [(97, 98); (98, 99)]%Z [97; 98; 99]%Z = Some (0, (97, 98)%Z)
  /\ Tokenizer.encode_chunk [(97, 98); (98, 99)]%Z [97; 98; 99]%Z = [256; 99]%Z.
Proof.
  assert (Hb : is_byte 97 /\ is_byte 98 /\ is_byte 99) by (unfold is_byte; lia).
  split; [exact Hb|].
  exact (proj1 (proj2 (proj2 encode_uses_rank)) 97%Z 98%Z 99%Z
           (proj1 Hb) (proj1 (proj2 Hb)) (proj2 (proj2 Hb))).
Defined.

(** ** Tokens as strings *)

Lemma string_append_assoc (s1 s2 s3 : string) : (s1 +:+ s2) +:+ s3 = s1 +:+ s2 +:+ s3.
Proof.
  induction s1 as [|a s1 IH]; [done|].
  change (String a ((s1 +:+ s2) +:+ s3) = String a (s1 +:+ s2 +:+ s3)). by rewrite IH.
Qed.

Lemma join_chars_of s : join (chars_of s) = s.
Proof. induction s as [|a s IH]; [done|]. unfold chars_of, join in *. simpl. by rewrite IH. Qed.

(** Merging two tokens into their concatenation keeps the text. *)
Lemma join_rewrite_pairs text pair :
  join (rewrite_pairs text pair (pair.1 +:+ pair.2)) = join text.
Proof.
  induction text as [text IH] using (induction_ltof1 _ (@length string)). unfold ltof in IH.
  destruct text as [|a [|b rest]]; [done|done|].
  rewrite rewrite_pairs_cons2.
  destruct (bool_decide (a = pair.1) && bool_decide (b = pair.2)) eqn:Hb.
  - apply andb_true_iff in Hb as [->%bool_decide_eq_true ->%bool_decide_eq_true].
    unfold join in *. cbn [foldr]. rewrite IH by (simpl; lia).
    apply string_append_assoc.
  - unfold join in *. cbn [foldr]. by rewrite IH by (simpl; lia).
Qed.

Lemma merge_loop_join n : forall toks printed toks' printed',
  Part4.merge_loop n toks printed = Done (toks', printed') -> join toks' = join toks.
Proof.
  induction n as [|n IH]; intros toks printed toks' printed'; simpl.
  - by intros [= <- _].
  - destruct (py_max _ _) as [pair| |]; [|done..]. cbn [run_bind].
    rewrite Part4_replace_pairs_eq. cbn [run_bind].
    intros Hloop%IH. by rewrite Hloop, join_rewrite_pairs.
Qed.

(** ** Decoding what was encoded *)

Lemma decode_expand v toks :
  (forall s, s ∈ toks -> is_Some (v !! s)) ->
  Tokenizer.decode toks v = Done (expand v toks).
Proof.
  induction toks as [|t toks IH]; [done|]. intros Hknown.
  destruct (Hknown t ltac:(left)) as [bytes Ht].
  rewrite expand_cons. unfold Tokenizer.expansion. cbn [Tokenizer.decode].
  rewrite Ht, IH by (intros; apply Hknown; by right). done.
Qed.

Lemma encode_rounds_expand alphabet origin m n : forall syms,
  consistent alphabet origin m ->
  (forall s, s ∈ syms -> is_Some (Tokenizer.vocabulary m !! s)) ->
  (forall s, s ∈ Tokenizer.encode_rounds n (Tokenizer.merges m) syms ->
             is_Some (Tokenizer.vocabulary m !! s))
  /\ expand (Tokenizer.vocabulary m) (Tokenizer.encode_rounds n (Tokenizer.merges m) syms)
     = expand (Tokenizer.vocabulary m) syms.
Proof.
  induction n as [|n IH]; intros syms Hm Hknown; [done|]. simpl.
  destruct (Tokenizer.lowest_rank (Tokenizer.merges m) syms) as [[k [l r]]|] eqn:Hlow; [|done].
  pose proof (lowest_rank_spec (Tokenizer.merges m) syms) as Hspec.
  rewrite Hlow in Hspec. destruct Hspec as (Hrank%rank_of_lookup & _ & _).
  destruct (consistent_merges _ _ _ Hm k l r Hrank) as (Hl & Hr & Hv).
  destruct (IH (rewrite_pairs syms (l, r) (256 + Z.of_nat k)%Z) Hm) as [IH1 IH2].
  - intros s [->|Hs]%rewrite_pairs_elem; [by eexists|by apply Hknown].
  - split; [done|]. rewrite IH2. by apply expand_rewrite.
Qed.

Lemma elem_of_concat {A} (l : list (list A)) (x : A) :
  x ∈ concat l <-> exists y, y ∈ l /\ x ∈ y.
Proof. rewrite <- (map_id l) at 1. apply (elem_of_concat_map (fun c => c)). Qed.

Lemma byte_values_elem s : s ∈ Tokenizer.byte_values <-> is_byte s.
Proof. unfold Tokenizer.byte_values, is_byte. rewrite elem_of_seqZ. lia. Qed.

Lemma byte_values_small : Forall (fun s => (s < 256)%Z) Tokenizer.byte_values.
Proof. apply Forall_forall. intros s Hs%byte_values_elem. unfold is_byte in Hs. lia. Qed.

Lemma segment_bytes is_L is_N is_space text :
  Forall is_byte text ->
  Forall (Forall (fun s => s ∈ Tokenizer.byte_values))
    (Tokenizer.segment is_L is_N is_space text).
Proof.
  intros Htext. destruct (findall_categories_concat is_L is_N is_space text) as (Hconcat & _).
  unfold Tokenizer.segment. rewrite <- Hconcat in Htext.
  apply Forall_forall. intros c Hc. apply Forall_forall. intros s Hs.
  apply byte_values_elem. rewrite Forall_forall in Htext. apply Htext.
  apply elem_of_concat. by exists c.
Qed.

(** The model that [train] returns is consistent with the segmented corpus. *)
Lemma train_consistent is_L is_N is_space corpus target v ms :
  Forall is_byte corpus ->
  Tokenizer.train is_L is_N is_space corpus target = Done (v, ms) ->
  exists m, consistent Tokenizer.byte_values (Tokenizer.segment is_L is_N is_space corpus) m
            /\ Tokenizer.vocabulary m = v /\ Tokenizer.merges m = ms
            /\ Tokenizer.train_step target m = None.
Proof.
  intros Hcorpus. unfold Tokenizer.train. destruct (target <? 256); [done|].
  intros [= <- <-]. eexists. split_and!; [|done|done|].
  - unfold Tokenizer.train_chunks. apply consistent_loop; [apply byte_values_small|].
    apply consistent_init; [apply byte_values_small|by apply segment_bytes].
  - unfold Tokenizer.train_chunks.
    apply (train_loop_terminal Tokenizer.byte_values
             (Tokenizer.segment is_L is_N is_space corpus)); [apply byte_values_small| |done].
    apply consistent_init; [apply byte_values_small|by apply segment_bytes].
Qed.

(** C1: decoding what the encoder produced gives the text back, for every
    text of bytes and every vocabulary and merge table that training returns
    on a corpus of bytes; the decoder only looks the symbols up and
    concatenates their entries.  In the notebook, where a token is the
    string it stands for, a merge and any number of rounds of the merge loop
    keep the concatenation of the tokens equal to the text. *)
Theorem decode_encode_roundtrip :
  (forall (is_L is_N is_space : Z -> bool) (corpus : list Z) (target : nat) v ms
          (x : list Z),
      Forall is_byte corpus ->
      Forall is_byte x ->
      Tokenizer.train is_L is_N is_space corpus target = Done (v, ms) ->
      Tokenizer.decode (Tokenizer.encode is_L is_N is_space x ms) v = Done x)
  /\ (forall text pair,
      exists out, Part4.replace_pairs text pair = Done out /\ join out = join text)
  /\ (forall n s toks printed,
      Part4.merge_loop n (chars_of s) [] = Done (toks, printed) -> join toks = s).
Proof.
  split_and!.
  - intros is_L is_N is_space corpus target v ms x Hcorpus Hx Htrain.
    destruct (train_consistent _ _ _ _ _ _ _ Hcorpus Htrain) as (m & Hm & <- & <- & _).
    pose proof (segment_bytes is_L is_N is_space x Hx) as Hchunks.
    destruct (findall_categories_concat is_L is_N is_space x) as (Hconcat & _).
    unfold Tokenizer.encode, Tokenizer.segment in *.
    set (cs := findall (Part4.categories is_L is_N is_space) x) in *.
    assert (Hbyte : forall c s, c ∈ cs -> s ∈ c -> Tokenizer.vocabulary m !! s = Some [s]).
    { intros c s Hc Hs. apply (consistent_alphabet _ _ _ Hm).
      rewrite Forall_forall in Hchunks. specialize (Hchunks c Hc).
      rewrite Forall_forall in Hchunks. by apply Hchunks. }
    assert (Henc : forall c, c ∈ cs ->
              (forall s, s ∈ Tokenizer.encode_chunk (Tokenizer.merges m) c ->
                         is_Some (Tokenizer.vocabulary m !! s))
              /\ expand (Tokenizer.vocabulary m)
                   (Tokenizer.encode_chunk (Tokenizer.merges m) c) = c).
    { intros c Hc. unfold Tokenizer.encode_chunk.
      destruct (encode_rounds_expand _ _ m (length c) c Hm) as [H1 H2].
      - intros s Hs. rewrite (Hbyte c s Hc Hs). by eexists.
      - split; [done|]. rewrite H2. apply expand_alphabet. intros s Hs. by apply (Hbyte c). }
    clearbody cs. subst x. clear Hx Hchunks Hbyte.
    rewrite decode_expand.
    + f_equal.
      induction cs as [|c cs IH]; [done|]. simpl. rewrite expand_app.
      rewrite (proj2 (Henc c ltac:(left))). f_equal.
      apply IH. intros c' Hc'. apply Henc. by right.
    + intros s (c & Hc & Hs)%elem_of_concat_map. by apply (Henc c).
  - intros text pair. eexists. split; [apply Part4_replace_pairs_eq|].
    apply join_rewrite_pairs.
  - intros n s toks printed Hloop%merge_loop_join. by rewrite Hloop, join_chars_of.
Qed.

Lemma decode_encode_roundtrip_witness :
  Tokenizer.decode
    (Tokenizer.encode ascii_L ascii_N ascii_space (codes "your dog's dog.")
       (Tokenizer.train_chunks Tokenizer.byte_values
          (Tokenizer.segment ascii_L ascii_N ascii_space (codes "my dog. your dog."))
          259).(Tokenizer.merges))
    (Tokenizer.train_chunks Tokenizer.byte_values
       (Tokenizer.segment ascii_L ascii_N ascii_space (codes "my dog. your dog."))
       259).(Tokenizer.vocabulary)
  = Done (codes "your dog's dog.").
Proof.
  apply (proj1 decode_encode_roundtrip ascii_L ascii_N ascii_space
           (codes "my dog. your dog.") 259).
  - unfold is_byte. vm_compute. repeat constructor; discriminate.
  - unfold is_byte. vm_compute. repeat constructor; discriminate.
  - reflexivity.
Defined.

(** ** The vocabulary *)



(** ** Chunk boundaries *)

(** No chunk of [my dog. your dog.] holds the full stop together with a
    letter. *)
Lemma dog_chunks_unmixed :
  forallb (fun c => negb (existsb (Z.eqb 46) c && existsb ascii_L c))
    (Tokenizer.segment ascii_L ascii_N ascii_space (codes "my dog. your dog."))
  = true.
Proof. by vm_compute. Qed.

(** C8: no pair is counted across two chunks and no created entry crosses a
    chunk boundary: a pair in the statistics occurs inside one chunk, with
    the count of its occurrences inside the chunks; every entry that training
    on a corpus of bytes creates is a contiguous piece of one chunk of the
    segmented corpus; and on [my dog. your dog.] no created entry contains
    the full stop together with a letter. *)
Theorem no_merge_across_chunks :
  (forall (cs : list (list Z)) p n,
      (p, n) ∈ Tokenizer.pair_counts cs ->
      n = occurrences p (concat (map adjacent cs))
      /\ exists c, c ∈ cs /\ p ∈ adjacent c)
  /\ (forall (is_L is_N is_space : Z -> bool) corpus target v ms,
      Forall is_byte corpus ->
      Tokenizer.train is_L is_N is_space corpus target = Done (v, ms) ->
      forall s bytes,
        (256 <= s)%Z -> v !! s = Some bytes ->
        exists c a b, c ∈ Tokenizer.segment is_L is_N is_space corpus
                      /\ c = a ++ bytes ++ b)
  /\ (forall target v ms,
      Tokenizer.train ascii_L ascii_N ascii_space (codes "my dog. your dog.") target
      = Done (v, ms) ->
      forall s bytes,
        (256 <= s)%Z -> v !! s = Some bytes ->
        ~ (46%Z ∈ bytes /\ exists c, c ∈ bytes /\ ascii_L c = true)).
Proof.
  assert (Hpieces : forall (is_L is_N is_space : Z -> bool) corpus target v ms,
      Forall is_byte corpus ->
      Tokenizer.train is_L is_N is_space corpus target = Done (v, ms) ->
      forall s bytes,
        (256 <= s)%Z -> v !! s = Some bytes ->
        exists c a b, c ∈ Tokenizer.segment is_L is_N is_space corpus
                      /\ c = a ++ bytes ++ b).
  { intros is_L is_N is_space corpus target v ms Hcorpus Htrain s bytes Hs Hv.
    destruct (train_consistent _ _ _ _ _ _ _ Hcorpus Htrain) as (m & Hm & <- & _).
    by apply (consistent_pieces _ _ _ Hm s bytes). }
  split_and!; [|exact Hpieces|].
  - intros cs p n. rewrite pair_counts_eq, sorted_desc_perm. intros Hin.
    split; [by apply count_into_value|].
    assert (Hp : p ∈ concat (map adjacent cs)).
    { assert (p ∈ (count_into [] (concat (map adjacent cs))).*1) as Hk
        by (apply list_elem_of_fmap; by exists (p, n)).
      apply count_into_keys_elem in Hk as [Hk|Hk]; [by apply elem_of_nil in Hk|done]. }
    by apply elem_of_concat_map in Hp.
  - intros target v ms Htrain s bytes Hs Hv (Hdot & x & Hx & Hletter).
    assert (Hcorpus : Forall is_byte (codes "my dog. your dog."))
      by (unfold is_byte; vm_compute; repeat constructor; discriminate).
    destruct (Hpieces _ _ _ _ _ _ _ Hcorpus Htrain s bytes Hs Hv) as (c & a & b & Hc & ->).
    pose proof dog_chunks_unmixed as Hpure.
    rewrite forallb_forall in Hpure. apply list_elem_of_In, Hpure in Hc.
    apply negb_true_iff, andb_false_iff in Hc as [Hc|Hc].
    + assert (existsb (Z.eqb 46) (a ++ bytes ++ b) = true) as Hex; [|congruence].
      apply existsb_exists. exists 46%Z. split; [|apply Z.eqb_refl].
      apply list_elem_of_In. rewrite !elem_of_app. auto.
    + assert (existsb ascii_L (a ++ bytes ++ b) = true) as Hex; [|congruence].
      apply existsb_exists. exists x. split; [|done].
      apply list_elem_of_In. rewrite !elem_of_app. auto.
Qed.

Lemma no_merge_across_chunks_witness :
  let m := Tokenizer.train_chunks Tokenizer.byte_values
             (Tokenizer.segment ascii_L ascii_N ascii_space (codes "my dog. your dog."))
             259 in
  Tokenizer.vocabulary m !! 258%Z = Some (codes " dog")
  /\ exists c a b,
       c ∈ Tokenizer.segment ascii_L ascii_N ascii_space (codes "my dog. your dog.")
       /\ c = a ++ codes " dog" ++ b.
Proof.
  intros m. assert (Hv : Tokenizer.vocabulary m !! 258%Z = Some (codes " dog")) by reflexivity.
  split; [exact Hv|].
  apply (proj1 (proj2 no_merge_across_chunks) ascii_L ascii_N ascii_space
           (codes "my dog. your dog.") 259 (Tokenizer.vocabulary m) (Tokenizer.merges m)
           ltac:(unfold is_byte; vm_compute; repeat constructor; discriminate)
           eq_refl 258%Z (codes " dog") ltac:(lia) Hv).
Defined.

(** ** The stopping rule *)

Lemma train_step_Some target m p :
  size (Tokenizer.vocabulary m) < target ->
  Tokenizer.select_pair (Tokenizer.chunks m) = Some p ->
  Tokenizer.train_step target m
  = Some (Tokenizer.Model
            (map (fun c => rewrite_pairs c p (Tokenizer.next_id m)) (Tokenizer.chunks m))
            (<[Tokenizer.next_id m :=
                 Tokenizer.expansion (Tokenizer.vocabulary m) p.1
                 ++ Tokenizer.expansion (Tokenizer.vocabulary m) p.2]>
               (Tokenizer.vocabulary m))
            (Tokenizer.merges m ++ [p])).
Proof.
  intros Hsize Hsel. unfold Tokenizer.train_step. rewrite Hsel.
  destruct (Nat.leb_spec target (size (Tokenizer.vocabulary m))); [lia|done].
Qed.

Lemma train_step_None target m :
  Tokenizer.train_step target m = None
  <-> target <= size (Tokenizer.vocabulary m)
      \/ forall q, occurrences q (concat (map adjacent (Tokenizer.chunks m))) <= 1.
Proof.
  unfold Tokenizer.train_step. rewrite <- select_pair_None.
  destruct (Nat.leb_spec target (size (Tokenizer.vocabulary m))).
  - split; [by left|done].
  - destruct (Tokenizer.select_pair (Tokenizer.chunks m)).
    + split; [done|]. intros [?|?]; [lia|done].
    + split; [by right|done].
Qed.

Lemma train_loop_stop n target m :
  Tokenizer.train_step target m = None -> Tokenizer.train_loop n target m = m.
Proof. intros Hstop. destruct n; simpl; [done|by rewrite Hstop]. Qed.

(** C2: a round of training is refused exactly when the vocabulary has
    reached the target size or no pair occurs more than once, and training
    ends in such a state.  On [ababcabcd] read as characters, with any target
    of at least 6, training merges [(a, b)] into the symbol 256 and then
    [(256, c)] into the symbol 257 and nothing else: it ends with the four
    symbols [256 257 257 d] and a vocabulary of size 6, in which no pair
    occurs more than once.  The statistics of the notebook agree: those of the
    text are the printed ones, those of the final text are all 1, the merge
    loop of Part 4 performs the same two merges, and has no pair left for a
    third one ([max] of its empty statistics raises [ValueError]). *)
Theorem training_stops :
  (forall target m,
      Tokenizer.train_step target m = None
      <-> target <= size (Tokenizer.vocabulary m)
          \/ forall q, occurrences q (concat (map adjacent (Tokenizer.chunks m))) <= 1)
  /\ (forall alphabet cs target,
      Forall (fun s => (s < 256)%Z) alphabet ->
      Forall (Forall (fun s => s ∈ alphabet)) cs ->
      Tokenizer.train_step target (Tokenizer.train_chunks alphabet cs target) = None)
  /\ (forall target,
      6 <= target ->
      let m := Tokenizer.train_chunks (sorted_set (codes "ababcabcd"))
                 [codes "ababcabcd"] target in
      Tokenizer.merges m = [(97, 98); (256, 99)]%Z
      /\ Tokenizer.chunks m = [[256; 257; 257; 100]%Z]
      /\ size (Tokenizer.vocabulary m) = 6
      /\ Tokenizer.select_pair (Tokenizer.chunks m) = None)
  /\ (Part3.get_stats (codes "ababcabcd")
      = [((97, 98)%Z, 3); ((98, 99)%Z, 2); ((98, 97)%Z, 1); ((99, 97)%Z, 1);
         ((99, 100)%Z, 1)]
      /\ Part3.get_stats [256; 257; 257; 100]%Z
         = [((256, 257)%Z, 1); ((257, 257)%Z, 1); ((257, 100)%Z, 1)]
      /\ Part4.merge_loop 2 (chars_of "ababcabcd") []
         = Done (["ab"; "abc"; "abc"; "d"], [("a", "b"); ("ab", "c")])%string
      /\ Part4.get_stats ["ab"; "abc"; "abc"; "d"]%string = []
      /\ Part4.merge_loop 3 (chars_of "ababcabcd") [] = Raise ValueError).
Proof.
  split_and!; [| | |by vm_compute..].
  - apply train_step_None.
  - intros alphabet cs target Halphabet Hcs. unfold Tokenizer.train_chunks.
    apply (train_loop_terminal alphabet cs Halphabet); [|done].
    by apply consistent_init.
  - intros target Htarget. unfold Tokenizer.train_chunks.
    set (m0 := Tokenizer.Model [codes "ababcabcd"]
                 (Tokenizer.unit_vocabulary (sorted_set (codes "ababcabcd"))) []).
    assert (Hsize0 : size (Tokenizer.vocabulary m0) = 4) by by vm_compute.
    rewrite Hsize0.
    destruct (target - 4) as [|[|n]] eqn:Hn; [lia|lia|].
    cbn [Tokenizer.train_loop].
    rewrite (train_step_Some target m0 (97, 98)%Z); [|lia|by vm_compute].
    set (m1 := Tokenizer.Model _ _ _).
    assert (Hsize1 : size (Tokenizer.vocabulary m1) = 5) by by vm_compute.
    rewrite (train_step_Some target m1 (256, 99)%Z); [|lia|by vm_compute].
    set (m2 := Tokenizer.Model _ _ _).
    assert (Hsel2 : Tokenizer.select_pair (Tokenizer.chunks m2) = None) by by vm_compute.
    rewrite train_loop_stop.
    + cbv zeta. split_and!; [by vm_compute|by vm_compute|by vm_compute|done].
    + apply train_step_None. right. by apply select_pair_None.
Qed.

Lemma training_stops_witness :
  Tokenizer.train_step 6
    (Tokenizer.train_chunks (sorted_set (codes "ababcabcd")) [codes "ababcabcd"] 6)
  = None
  /\ Tokenizer.merges
       (Tokenizer.train_chunks (sorted_set (codes "ababcabcd")) [codes "ababcabcd"] 6)
     = [(97, 98); (256, 99)]%Z.
Proof.
  split.
  - apply (proj1 (proj2 training_stops)).
    + vm_compute. repeat constructor.
    + vm_compute. repeat constructor; apply list_elem_of_In; simpl; auto 10.
  - apply (proj1 (proj2 (proj2 training_stops)) 6). lia.
Defined.


(** ** The outputs printed in the notebooks *)

(** Part 4, first example: without segmentation the fourth merge joins the
    word and the full stop. *)
Example merge_loop_example_1 :
  Part4.merge_loop 4 (chars_of "my dog. your dog.") []
  = Done (["m"; "y"; " dog."; " "; "y"; "o"; "u"; "r"; " dog."],
          [(" ", "d"); (" d", "o"); (" do", "g"); (" dog", ".")])%string.
Proof. by vm_compute. Qed.

(** Part 3, byte level: the statistics of the text and the first merge. *)
Example get_stats_example :
  fst <$> Part3.get_stats
    [240; 159; 152; 132; 240; 159; 152; 132; 32; 97; 98; 97; 98; 99; 97; 98; 99; 100; 32;
     240; 159; 152; 132; 240; 159; 152; 132]%Z
  = [(240, 159); (159, 152); (152, 132); (97, 98); (132, 240); (98, 99); (132, 32);
     (32, 97); (98, 97); (99, 97); (99, 100); (100, 32); (32, 240)]%Z.
Proof. by vm_compute. Qed.

Example replace_pairs_example :
  Part3.replace_pairs
    [240; 159; 152; 132; 240; 159; 152; 132; 32; 97; 98; 97; 98; 99; 97; 98; 99; 100; 32;
     240; 159; 152; 132; 240; 159; 152; 132]%Z (240, 159)%Z 256%Z
  = Done [256; 152; 132; 256; 152; 132; 32; 97; 98; 97; 98; 99; 97; 98; 99; 100; 32;
          256; 152; 132; 256; 152; 132]%Z.
Proof. by vm_compute. Qed.


(** * Further properties of the notebooks' code *)

(** ** The statistics of [get_stats] *)

Lemma adjacent_length {A} (l : list A) : length (adjacent l) = length l - 1.
Proof.
  induction l as [|a l IH]; [done|]. destruct l as [|b l]; [done|].
  cbn [adjacent length] in *. lia.
Qed.

Lemma occurrences_le {K} `{EqDecision K} (p : K) ps : occurrences p ps <= length ps.
Proof. apply length_filter. Qed.

Lemma count_into_sum {K} `{EqDecision K} (ps : list K) : forall st,
  sum_list_with snd (count_into st ps) = sum_list_with snd st + length ps.
Proof.
  induction ps as [|p ps IH]; intros st; [simpl; lia|].
  rewrite count_into_cons, IH. cbn [length].
  assert (sum_list_with snd (dict_set st p (dict_get st p 0 + 1))
          = S (sum_list_with snd st)) as ->; [|lia].
  induction st as [|[k v] st IHst]; [done|]. simpl.
  destruct (decide (k = p)); simpl; [lia|]. rewrite IHst. lia.
Qed.

Lemma insert_desc_sorted {K} (x : K * nat) l :
  StronglySorted (fun a b => b.2 <= a.2) l ->
  StronglySorted (fun a b => b.2 <= a.2) (insert_desc x l).
Proof.
  induction 1 as [|y l Hl IH Hy]; simpl.
  - repeat constructor.
  - destruct (Nat.ltb_spec x.2 y.2).
    + constructor; [done|]. rewrite insert_desc_perm. constructor; [lia|done].
    + constructor; [by constructor|]. constructor; [lia|].
      eapply Forall_impl; [done|]. simpl. intros z Hz. lia.
Qed.

Lemma sorted_desc_sorted {K} (l : list (K * nat)) :
  StronglySorted (fun a b => b.2 <= a.2) (sorted_desc l).
Proof. induction l as [|x l IH]; simpl; [constructor|by apply insert_desc_sorted]. Qed.

Section StatsFacts.
Context {A : Type} `{EqDecision A}.
Implicit Types (chars : list A) (p : A * A).

Lemma get_stats_elem chars p n :
  (p, n) ∈ Part3.get_stats chars
  <-> p ∈ adjacent chars /\ n = occurrences p (adjacent chars).
Proof.
  unfold Part3.get_stats. rewrite sorted_desc_perm. split.
  - intros Hin. split; [|by apply count_into_value].
    assert (p ∈ (count_into [] (adjacent chars)).*1) as Hk
      by (apply list_elem_of_fmap; by exists (p, n)).
    apply count_into_keys_elem in Hk as [Hk|Hk]; [by apply elem_of_nil in Hk|done].
  - intros [Hp ->]. by apply count_into_elem.
Qed.

Lemma get_stats_NoDup chars : NoDup (Part3.get_stats chars).*1.
Proof.
  unfold Part3.get_stats. rewrite sorted_desc_perm.
  apply count_into_NoDup. constructor.
Qed.

Lemma get_stats_get chars p :
  dict_get (Part3.get_stats chars) p 0 = occurrences p (adjacent chars).
Proof.
  destruct (decide (p ∈ adjacent chars)) as [Hp|Hp].
  - apply dict_get_lookup; [apply get_stats_NoDup|]. by apply get_stats_elem.
  - assert (occurrences p (adjacent chars) = 0) as ->.
    { destruct (occurrences p (adjacent chars)) eqn:Ho; [done|].
      exfalso. apply Hp, occurrences_pos. lia. }
    assert (Hk : p ∉ (Part3.get_stats chars).*1).
    { intros ([p' n] & -> & Hin)%list_elem_of_fmap. apply get_stats_elem in Hin as [? _]. done. }
    induction (Part3.get_stats chars) as [|[k v] d IH]; [done|].
    csimpl in Hk. apply not_elem_of_cons in Hk as [Hne Hk]. simpl.
    rewrite decide_False by done. by apply IH.
Qed.
End StatsFacts.

(** X1: [get_stats] lists every pair of adjacent symbols exactly once, with
    the number of its occurrences; a pair that does not occur is not a key,
    and [stats.get(p, 0)] is the number of occurrences of [p] for every
    pair. *)
Theorem get_stats_counts (chars : list Z) :
  NoDup (Part3.get_stats chars).*1
  /\ (forall p n, (p, n) ∈ Part3.get_stats chars
                  <-> p ∈ adjacent chars /\ n = occurrences p (adjacent chars))
  /\ (forall p, dict_get (Part3.get_stats chars) p 0 = occurrences p (adjacent chars)).
Proof.
  split_and!; [apply get_stats_NoDup|apply get_stats_elem|apply get_stats_get].
Qed.

(** X2: the statistics come out with non-increasing counts; the counts add
    up to the number of adjacent positions, which is [len(chars) - 1] for a
    text that is not empty and [0] for the empty text (where
    [len(chars) - 1] is [-1]); and a text of fewer than two symbols has no
    statistics. *)
Theorem get_stats_sorted_total (chars : list Z) :
  StronglySorted (fun a b => b.2 <= a.2) (Part3.get_stats chars)
  /\ Z.of_nat (sum_list_with snd (Part3.get_stats chars))
     = Z.max 0 (Z.of_nat (length chars) - 1)
  /\ (Part3.get_stats chars = [] <-> length chars <= 1).
Proof.
  split_and!.
  - apply sorted_desc_sorted.
  - unfold Part3.get_stats. rewrite sorted_desc_perm, count_into_sum, adjacent_length.
    simpl. lia.
  - split.
    + intros Hnil. destruct chars as [|a [|b chars]]; [simpl; lia..|].
      assert (Hin : ((a, b), occurrences (a, b) (adjacent (a :: b :: chars)))
                    ∈ Part3.get_stats (a :: b :: chars))
        by (apply get_stats_elem; split; [left|done]).
      rewrite Hnil in Hin. by apply elem_of_nil in Hin.
    + intros Hlen. destruct chars as [|a [|b chars]]; [done|done|simpl in Hlen; lia].
Qed.

(** X3: the statistics of Part 4 are the pairs that occur more than once,
    with their counts; they are empty exactly when no pair repeats, which is
    always so for fewer than three symbols. *)
Theorem get_stats_repeated (chars : list string) :
  (forall p n, (p, n) ∈ Part4.get_stats chars
               <-> n = occurrences p (adjacent chars) /\ 1 < n)
  /\ (Part4.get_stats chars = [] <-> forall p, occurrences p (adjacent chars) <= 1)
  /\ (forall p n, (p, n) ∈ Part4.get_stats chars -> 3 <= length chars)
  /\ NoDup (Part4.get_stats chars).*1.
Proof.
  assert (Helem : forall p n, (p, n) ∈ Part4.get_stats chars
               <-> n = occurrences p (adjacent chars) /\ 1 < n).
  { intros p n. unfold Part4.get_stats. rewrite list_elem_of_filter.
    change (sorted_desc (count_into [] (adjacent chars))) with (Part3.get_stats chars).
    rewrite get_stats_elem. simpl. split.
    - intros (? & ? & ?). done.
    - intros [-> Hn]. split_and!; [done| |done]. apply occurrences_pos. lia. }
  split_and!; [done| | |].
  - split.
    + intros Hnil p. destruct (decide (1 < occurrences p (adjacent chars))); [|lia].
      assert (Hin : (p, occurrences p (adjacent chars)) ∈ Part4.get_stats chars)
        by by apply Helem.
      rewrite Hnil in Hin. by apply elem_of_nil in Hin.
    + intros Hall. apply elem_of_nil_inv. intros [p n] [-> Hn]%Helem.
      specialize (Hall p). lia.
  - intros p n [-> Hn]%Helem.
    pose proof (occurrences_le p (adjacent chars)) as Hle.
    rewrite adjacent_length in Hle. lia.
  - unfold Part4.get_stats. apply NoDup_filter_keys.
    rewrite sorted_desc_perm. apply count_into_NoDup. constructor.
Qed.

(** ** What a merge leaves behind *)

Section RewriteFacts.
Context {A : Type} `{EqDecision A}.
Implicit Types (text : list A) (pair : A * A).

Lemma rewrite_pairs_head (b : A) rest pair new :
  head (rewrite_pairs (b :: rest) pair new) = Some new
  \/ head (rewrite_pairs (b :: rest) pair new) = Some b.
Proof.
  destruct rest as [|c rest]; [by right|]. rewrite rewrite_pairs_cons2.
  destruct (_ && _); [by left|by right].
Qed.

Lemma adjacent_cons_head (a : A) l p :
  p ∈ adjacent (a :: l) ->
  (exists h, head l = Some h /\ p = (a, h)) \/ p ∈ adjacent l.
Proof.
  destruct l as [|b l]; [by intros ?%elem_of_nil|]. cbn [adjacent].
  intros [->|?]%elem_of_cons; [left; by exists b|by right].
Qed.

(** After the rewriting the pair is not in the text any more, provided the
    symbol written is neither of its two symbols. *)
Lemma rewrite_pairs_gone text pair new :
  new <> pair.1 -> new <> pair.2 -> pair ∉ adjacent (rewrite_pairs text pair new).
Proof.
  intros H1 H2.
  induction text as [text IH] using (induction_ltof1 _ (@length A)). unfold ltof in IH.
  destruct text as [|a [|b rest]]; [by intros ?%elem_of_nil..|].
  rewrite rewrite_pairs_cons2.
  destruct (bool_decide (a = pair.1) && bool_decide (b = pair.2)) eqn:Hb.
  - intros [(h & _ & ->)|Hin]%adjacent_cons_head; [done|].
    revert Hin. apply IH. simpl. lia.
  - intros [(h & Hh & ->)|Hin]%adjacent_cons_head.
    + destruct (rewrite_pairs_head b rest (a, h) new) as [Hn|Hn];
        rewrite Hn in Hh; injection Hh as <-; [done|].
      simpl in Hb. by rewrite !bool_decide_eq_true_2 in Hb.
    + revert Hin. apply IH. simpl. lia.
Qed.
End RewriteFacts.

Lemma unmerge_cons pair idx x l :
  unmerge pair idx (x :: l)
  = (if decide (x = idx) then [pair.1; pair.2] else [x]) ++ unmerge pair idx l.
Proof. done. Qed.

Lemma unmerge_rewrite_pairs text pair idx :
  idx ∉ text -> unmerge pair idx (rewrite_pairs text pair idx) = text.
Proof.
  induction text as [text IH] using (induction_ltof1 _ (@length Z)). unfold ltof in IH.
  destruct text as [|a [|b rest]]; [done| |].
  - intros [Ha _]%not_elem_of_cons. cbn [rewrite_pairs].
    rewrite unmerge_cons. by rewrite decide_False.
  - intros Hnot. apply not_elem_of_cons in Hnot as [Ha Hrest].
    apply not_elem_of_cons in Hrest as [Hb Hrest].
    rewrite rewrite_pairs_cons2.
    destruct (bool_decide (a = pair.1) && bool_decide (b = pair.2)) eqn:Hhit.
    + apply andb_true_iff in Hhit as [->%bool_decide_eq_true ->%bool_decide_eq_true].
      rewrite unmerge_cons, decide_True by done. rewrite IH; [done|simpl; lia|done].
    + rewrite unmerge_cons, decide_False by done. rewrite IH; [done|simpl; lia|].
      apply not_elem_of_cons. done.
Qed.

Lemma string_length_append (s1 s2 : string) :
  String.length (s1 +:+ s2) = String.length s1 + String.length s2.
Proof.
  induction s1 as [|a s1 IH]; [done|].
  change (S (String.length (s1 +:+ s2)) = S (String.length s1 + String.length s2)).
  by rewrite IH.
Qed.

Lemma string_length_zero (s : string) : String.length s = 0 -> s = EmptyString.
Proof. by destruct s. Qed.

(** X4: after [replace_pairs] the pair does not occur in the text any more,
    so that a second call changes nothing, provided the symbol written is
    neither symbol of the pair; for the string variant, which writes the
    concatenation, this is so whenever both tokens of the pair are
    non-empty. *)
Theorem replace_pairs_removes_pair :
  (forall (text : list Z) pair idx out,
      idx <> pair.1 -> idx <> pair.2 ->
      Part3.replace_pairs text pair idx = Done out ->
      (pair ∉ adjacent out) /\ Part3.replace_pairs out pair idx = Done out)
  /\ (forall text pair out,
      pair.1 <> EmptyString -> pair.2 <> EmptyString ->
      Part4.replace_pairs text pair = Done out ->
      (pair ∉ adjacent out) /\ Part4.replace_pairs out pair = Done out).
Proof.
  split.
  - intros text pair idx out H1 H2. rewrite Part3_replace_pairs_eq. intros [= <-].
    pose proof (rewrite_pairs_gone text pair idx H1 H2) as Hgone.
    split; [done|]. rewrite Part3_replace_pairs_eq. f_equal.
    by apply rewrite_pairs_absent.
  - intros text pair out H1 H2. rewrite Part4_replace_pairs_eq. intros [= <-].
    assert (Hne1 : (pair.1 +:+ pair.2) <> pair.1).
    { intros Heq%(f_equal String.length). rewrite string_length_append in Heq.
      apply H2, string_length_zero. lia. }
    assert (Hne2 : (pair.1 +:+ pair.2) <> pair.2).
    { intros Heq%(f_equal String.length). rewrite string_length_append in Heq.
      apply H1, string_length_zero. lia. }
    pose proof (rewrite_pairs_gone text pair _ Hne1 Hne2) as Hgone.
    split; [done|]. rewrite Part4_replace_pairs_eq. f_equal.
    by apply rewrite_pairs_absent.
Qed.

Lemma replace_pairs_removes_pair_witness :
  ((240, 159)%Z ∉ adjacent [256; 152; 132; 256; 152]%Z)
  /\ Part3.replace_pairs [256; 152; 132; 256; 152]%Z (240, 159)%Z 256%Z
     = Done [256; 152; 132; 256; 152]%Z.
Proof.
  apply (proj1 replace_pairs_removes_pair [240; 159; 152; 132; 240; 159; 152]%Z
           (240, 159)%Z 256%Z); [done|done|reflexivity].
Defined.

(** X5: a merge with a symbol that does not occur in the text loses
    nothing: writing the two symbols of the pair back for every occurrence
    of the new symbol gives the text again, and the text was longer by the
    number of occurrences of the new symbol. *)
Theorem replace_pairs_invertible (text : list Z) (pair : Z * Z) (idx : Z) (out : list Z) :
  idx ∉ text ->
  Part3.replace_pairs text pair idx = Done out ->
  unmerge pair idx out = text
  /\ length text = length out + occurrences idx out.
Proof.
  intros Hfresh. rewrite Part3_replace_pairs_eq. intros [= <-].
  pose proof (unmerge_rewrite_pairs text pair idx Hfresh) as Hinv.
  split; [done|]. rewrite <- Hinv at 1. unfold occurrences.
  generalize (rewrite_pairs text pair idx). intros l.
  induction l as [|x l IH]; [done|].
  rewrite unmerge_cons, length_app, IH, filter_cons.
  destruct (decide (x = idx)); simpl; lia.
Qed.

Lemma replace_pairs_invertible_witness :
  unmerge (240, 159)%Z 256%Z [256; 152; 132; 256; 152]%Z
  = [240; 159; 152; 132; 240; 159; 152]%Z
  /\ length [240; 159; 152; 132; 240; 159; 152]%Z
     = length [256; 152; 132; 256; 152]%Z + occurrences 256%Z [256; 152; 132; 256; 152]%Z.
Proof.
  apply (replace_pairs_invertible [240; 159; 152; 132; 240; 159; 152]%Z (240, 159)%Z 256%Z).
  - intros Hin. apply list_elem_of_In in Hin. simpl in Hin.
    repeat (destruct Hin as [Hin|Hin]; [discriminate|]). exact Hin.
  - reflexivity.
Defined.

(** ** The merge loop of Part 4 *)

Lemma merge_loop_outcome n : forall tokens printed,
  match Part4.merge_loop n tokens printed with
  | Done (tokens', printed') =>
      length printed' = length printed + n
      /\ length tokens' + n <= length tokens
      /\ (n = 0 \/ n + 2 <= length tokens)
  | Raise e => e = ValueError /\ 0 < n
  | OutOfFuel => False
  end.
Proof.
  induction n as [|n IH]; intros tokens printed; simpl.
  - split_and!; [lia|lia|by left].
  - destruct (py_max_none 1 (adjacent tokens)) as (_ & Hexn & Hfuel).
    change (filter (fun kv : (string * string) * nat => 1 < kv.2)
              (sorted_desc (count_into [] (adjacent tokens))))
      with (Part4.get_stats tokens) in Hexn, Hfuel.
    destruct (py_max _ _) as [pair|e|] eqn:Hmax; cbn [run_bind].
    + rewrite Part4_replace_pairs_eq. cbn [run_bind].
      apply (py_max_first 1) in Hmax as [Hocc _].
      assert (Hin : pair ∈ adjacent tokens) by (apply occurrences_pos; lia).
      pose proof (rewrite_pairs_shorter tokens pair (pair.1 +:+ pair.2) Hin) as Hshort.
      pose proof (occurrences_le pair (adjacent tokens)) as Hle.
      rewrite adjacent_length in Hle.
      specialize (IH (rewrite_pairs tokens pair (pair.1 +:+ pair.2)) (printed ++ [pair])).
      destruct (Part4.merge_loop n _ _) as [[tokens' printed']|e|]; [|by destruct IH; split; [|lia]|done].
      destruct IH as (Hp & Hl & Hn). rewrite length_app in Hp. simpl in Hp.
      split_and!; [lia|lia|right; lia].
    + split; [by apply Hexn|lia].
    + done.
Qed.

(** X6: the merge loop either performs all the merges asked for or stops
    with the [ValueError] of [max] on empty statistics; it never reads out of
    bounds.  When it succeeds it has printed one pair per round, every round
    has shortened the list of tokens, and the list it started from had at
    least two tokens more than the number of rounds. *)
Theorem merge_loop_rounds (n : nat) (tokens : list string) :
  match Part4.merge_loop n tokens [] with
  | Done (tokens', printed) =>
      length printed = n
      /\ length tokens' + n <= length tokens
      /\ (n = 0 \/ n + 2 <= length tokens)
      /\ join tokens' = join tokens
  | Raise e => e = ValueError /\ 0 < n
  | OutOfFuel => False
  end.
Proof.
  pose proof (merge_loop_outcome n tokens []) as Hout.
  destruct (Part4.merge_loop n tokens []) as [[tokens' printed]|e|] eqn:Hloop; [|done..].
  destruct Hout as (Hp & Hl & Hn). split_and!; [done..|].
  by apply merge_loop_join in Hloop.
Qed.

(** ** How [categories] cuts a text *)

Lemma findall_from_fuel r :
  consuming r = true ->
  forall fuel s, length s <= fuel -> findall_from fuel r s = findall_from (length s) r s.
Proof.
  intros Hcons fuel. induction fuel as [fuel IH] using lt_wf_ind. intros s Hfuel.
  destruct s as [|c s']; [by destruct fuel|].
  destruct fuel as [|fuel']; [simpl in Hfuel; lia|].
  cbn [findall_from length].
  destruct (head (matches r (c :: s'))) as [rest|] eqn:Hhead.
  - apply head_Some in Hhead as [l' Hl'].
    assert (Hin : rest ∈ matches r (c :: s')) by (rewrite Hl'; left).
    pose proof (matches_consuming _ _ _ Hcons Hin) as Hlt.
    cbn [length] in Hlt.
    destruct (Nat.ltb_spec (length rest) (S (length s'))); [|lia].
    f_equal. rewrite (IH fuel') by (simpl in *; lia).
    symmetry. apply (IH (length s')); simpl in *; lia.
  - rewrite (IH fuel') by (simpl in *; lia). done.
Qed.

(** The first chunk is what the first match consumes; the scan goes on
    behind it. *)
Lemma findall_step r s pre rest :
  consuming r = true ->
  head (matches r s) = Some rest -> s = pre ++ rest ->
  findall r s = pre :: findall r rest.
Proof.
  intros Hcons Hhead ->. unfold findall.
  apply head_Some in Hhead as Hhead'. destruct Hhead' as [l' Hl'].
  assert (Hin : rest ∈ matches r (pre ++ rest)) by (rewrite Hl'; left).
  pose proof (matches_consuming _ _ _ Hcons Hin) as Hlt.
  destruct pre as [|c pre]; [simpl in Hlt; lia|].
  cbn [app] in *. cbn [length findall_from]. rewrite Hhead.
  destruct (Nat.ltb_spec (length rest) (S (length (pre ++ rest)))); [|simpl in *; lia].
  f_equal.
  - replace (S (length (pre ++ rest)) - length rest) with (length (c :: pre))
      by (rewrite length_app; simpl; lia).
    apply (take_app_length (c :: pre)).
  - apply findall_from_fuel; [done|]. rewrite length_app. lia.
Qed.

(** The longest run comes first. *)
Lemma plus_class_greedy p run : forall rest,
  run <> [] -> forallb p run = true ->
  match rest with [] => True | x :: _ => p x = false end ->
  exists more, plus_class p (run ++ rest) = rest :: more
               /\ match more with
                  | [] => exists c, run = [c]
                  | m :: _ => exists run' c, run = run' ++ [c] /\ m = c :: rest
                  end.
Proof.
  induction run as [|r run IH]; intros rest Hne Hall Hrest; [done|].
  apply andb_true_iff in Hall as [Hr Hall]. cbn [app plus_class]. rewrite Hr.
  destruct run as [|r' run'].
  - simpl. assert (plus_class p rest = []) as ->.
    { destruct rest as [|x rest']; [done|]. simpl. by rewrite Hrest. }
    exists []. split; [done|]. by exists r.
  - destruct (IH rest ltac:(done) Hall Hrest) as (more & -> & Hmore).
    eexists. split; [done|]. destruct more as [|m more'].
    + destruct Hmore as [c [= -> ->]]. simpl. by exists [r], c.
    + destruct Hmore as (run0 & c & Hrun & ->). simpl.
      exists (r :: run0), c. by rewrite Hrun.
Qed.

Lemma plus_class_none p s :
  match s with [] => True | x :: _ => p x = false end -> plus_class p s = [].
Proof. destruct s as [|x s]; [done|]. simpl. by intros ->. Qed.

Lemma head_app_nil {A} (l1 l2 : list A) : l1 = [] -> head (l1 ++ l2) = head l2.
Proof. by intros ->. Qed.

Lemma matches_str_none lit s :
  codes lit <> [] ->
  match s with [] => True | x :: _ => head (codes lit) <> Some x end ->
  matches (Part4.str lit) s = [].
Proof.
  intros Hlit Hs. apply elem_of_nil_inv. intros rest Hin%matches_str; [|done].
  subst s. destruct (codes lit) as [|c cs]; [done|]. simpl in Hs. done.
Qed.

Lemma starts_with_false p s :
  starts_with p s = false -> match s with [] => True | x :: _ => p x = false end.
Proof. by destruct s. Qed.

Lemma matches_opt_space_run_eq p s :
  matches (Part4.opt_space_run p) s
  = (match s with
     | c :: s' => if bool_decide (c = 32%Z) then plus_class p s' else []
     | [] => []
     end) ++ plus_class p s.
Proof.
  unfold Part4.opt_space_run. cbn [matches].
  destruct s as [|c s']; [done|]. case_bool_decide; csimpl; by rewrite ?app_nil_r.
Qed.

Section CutFacts.
Variables (is_L is_N is_space : Z -> bool).
Hypothesis Hproper : proper_classes is_L is_N is_space.

Lemma class_facts :
  (forall c, is_L c = true -> is_N c = false /\ is_space c = false
                              /\ Part4.other is_L is_N is_space c = false)
  /\ (forall c, is_N c = true -> is_L c = false /\ is_space c = false
                                 /\ Part4.other is_L is_N is_space c = false)
  /\ (forall c, is_space c = true -> is_L c = false /\ is_N c = false
                                     /\ Part4.other is_L is_N is_space c = false)
  /\ (forall c, Part4.other is_L is_N is_space c = true ->
                is_L c = false /\ is_N c = false /\ is_space c = false)
  /\ is_L 39 = false /\ is_N 39 = false /\ is_space 39 = false.
Proof.
  destruct Hproper as (HLN & HS & H39 & _). unfold Part4.other in *.
  split_and!.
  - intros c Hc. rewrite (HLN c Hc), Hc. split_and!; [done| |by rewrite orb_true_r].
    destruct (is_space c) eqn:Hs; [|done]. apply HS in Hs as [? _]. congruence.
  - intros c Hc. rewrite Hc.
    assert (is_L c = false) as ->.
    { destruct (is_L c) eqn:Hl; [|done]. apply HLN in Hl. congruence. }
    assert (is_space c = false) as ->; [|done].
    destruct (is_space c) eqn:Hs; [|done]. apply HS in Hs as [_ ?]. congruence.
  - intros c Hc. destruct (HS c Hc) as [-> ->]. by rewrite Hc.
  - intros c Hc. apply negb_true_iff in Hc.
    destruct (is_space c), (is_L c), (is_N c); done.
  - apply negb_true_iff in H39. by destruct (is_space 39), (is_L 39), (is_N 39).
  - apply negb_true_iff in H39. by destruct (is_space 39), (is_L 39), (is_N 39).
  - apply negb_true_iff in H39. by destruct (is_space 39), (is_L 39), (is_N 39).
Qed.

(** Where no contraction begins, only the five run alternatives count. *)
Lemma categories_no_contraction s :
  head s <> Some 39%Z ->
  matches (Part4.categories is_L is_N is_space) s
  = matches (Part4.opt_space_run is_L) s
    ++ matches (Part4.opt_space_run is_N) s
    ++ matches (Part4.opt_space_run (Part4.other is_L is_N is_space)) s
    ++ matches (Seq (Plus is_space) (NegLookahead (Class (fun c => negb (is_space c))))) s
    ++ matches (Plus is_space) s.
Proof.
  intros Hs. unfold Part4.categories. cbn [matches].
  rewrite !matches_str_none; [done|..]; try done;
    destruct s as [|x s]; try done; simpl in *; congruence.
Qed.

Lemma opt_space_run_none p s :
  starts_with p s = false ->
  (forall s', s = 32%Z :: s' -> starts_with p s' = false) ->
  matches (Part4.opt_space_run p) s = [].
Proof.
  intros Hs Hs'. rewrite matches_opt_space_run_eq.
  rewrite (plus_class_none p s) by by apply starts_with_false.
  destruct s as [|c s']; [done|]. case_bool_decide as Hc; [|done].
  subst c. rewrite plus_class_none; [done|]. by apply starts_with_false, Hs'.
Qed.

End CutFacts.

(** X7: a contraction suffix at the current position is always cut off as a
    chunk of its own, whatever the character classes are and whatever
    follows it, letters included. *)
Theorem contraction_cut_first (is_L is_N is_space : Z -> bool) (lit rest : list Z) :
  lit ∈ contractions ->
  findall (Part4.categories is_L is_N is_space) (lit ++ rest)
  = lit :: findall (Part4.categories is_L is_N is_space) rest.
Proof.
  intros Hlit. apply findall_step; [apply categories_consuming| |done].
  apply list_elem_of_In in Hlit. vm_compute in Hlit.
  repeat (destruct Hlit as [<-|Hlit]; [reflexivity|]). done.
Qed.

Lemma contraction_cut_first_witness :
  findall (Part4.categories ascii_L ascii_N ascii_space) (codes "'s" ++ codes "nake")
  = codes "'s" :: findall (Part4.categories ascii_L ascii_N ascii_space) (codes "nake").
Proof.
  apply (contraction_cut_first ascii_L ascii_N ascii_space (codes "'s") (codes "nake")).
  apply list_elem_of_In. left. reflexivity.
Defined.

Section Cuts.
Variables (is_L is_N is_space : Z -> bool).
Hypothesis Hproper : proper_classes is_L is_N is_space.
Hypothesis Hspace : is_space 32 = true.




End Cuts.



Lemma matches_neglook_class p t :
  matches (NegLookahead (Class p)) t = if starts_with p t then [] else [t].
Proof. cbn [matches]. destruct t as [|x t]; [done|]. simpl. by destruct (p x). Qed.

Section WhitespaceCuts.
Variables (is_L is_N is_space : Z -> bool).
Hypothesis Hproper : proper_classes is_L is_N is_space.

(** At a whitespace character that is not a space before a word, only the
    two whitespace alternatives can match. *)
Lemma whitespace_alternatives w s' :
  is_space w = true ->
  (w = 32%Z -> starts_with (fun x => negb (is_space x)) s' = false) ->
  matches (Part4.categories is_L is_N is_space) (w :: s')
  = (plus_class is_space (w :: s')
       ≫= matches (NegLookahead (Class (fun c => negb (is_space c)))))
    ++ plus_class is_space (w :: s').
Proof.
  intros Hw Hs'.
  destruct (class_facts is_L is_N is_space Hproper) as (_ & _ & HS & _ & _ & _ & H39).
  destruct (HS w Hw) as (HwL & HwN & HwO).
  assert (Hnext : forall p, (forall c, is_space c = true -> p c = false) ->
            forall t, w :: s' = 32%Z :: t -> starts_with p t = false).
  { intros p Hp t [= -> <-]. specialize (Hs' eq_refl).
    destruct s' as [|x s'']; [done|]. simpl in *. apply Hp.
    by apply negb_false_iff in Hs'. }
  rewrite categories_no_contraction by (simpl; intros [= ->]; congruence).
  rewrite (opt_space_run_none is_L)
    by first [exact HwL | apply Hnext; intros c Hc; by apply HS in Hc as (? & ? & ?)].
  rewrite (opt_space_run_none is_N)
    by first [exact HwN | apply Hnext; intros c Hc; by apply HS in Hc as (? & ? & ?)].
  rewrite (opt_space_run_none (Part4.other is_L is_N is_space))
    by first [exact HwO | apply Hnext; intros c Hc; by apply HS in Hc as (? & ? & ?)].
  done.
Qed.

Lemma whitespace_before_word ws c rest :
  ws <> [] -> forallb is_space ws = true -> is_space c = true ->
  starts_with (fun x => negb (is_space x)) rest = true ->
  head (matches (Part4.categories is_L is_N is_space) (ws ++ c :: rest)) = Some (c :: rest).
Proof.
  intros Hne Hall Hc Hrest.
  assert (Hrest' : starts_with is_space rest = false).
  { destruct rest as [|d rest']; [done|]. simpl in *. by apply negb_true_iff. }
  destruct (plus_class_greedy is_space (ws ++ [c]) rest) as (more & Hplus & Hmore).
  { by destruct ws. }
  { rewrite forallb_app, Hall. simpl. by rewrite Hc. }
  { by apply starts_with_false. }
  rewrite <- app_assoc in Hplus. cbn [app] in Hplus.
  destruct more as [|m more'].
  { destruct Hmore as [c' Hc']. destruct ws as [|w [|w' ws']]; done. }
  destruct Hmore as (run' & c' & [-> <-]%app_inj_tail & ->).
  destruct run' as [|w ws']; [done|]. cbn [app] in *.
  apply andb_true_iff in Hall as [Hw Hall].
  rewrite whitespace_alternatives; [|done|].
  - rewrite Hplus, !bind_cons, !matches_neglook_class, Hrest.
    simpl. by rewrite Hc.
  - intros _. destruct ws' as [|w' ws'']; simpl.
    + by rewrite Hc.
    + simpl in Hall. apply andb_true_iff in Hall as [-> _]. done.
Qed.

Lemma whitespace_only ws :
  ws <> [] -> forallb is_space ws = true ->
  head (matches (Part4.categories is_L is_N is_space) ws) = Some [].
Proof.
  intros Hne Hall.
  destruct (plus_class_greedy is_space ws [] Hne Hall I) as (more & Hplus & _).
  rewrite app_nil_r in Hplus.
  destruct ws as [|w ws']; [done|]. simpl in Hall.
  apply andb_true_iff in Hall as [Hw Hall].
  rewrite whitespace_alternatives; [|done|].
  - by rewrite Hplus, bind_cons, matches_neglook_class.
  - intros _. destruct ws' as [|w' ws'']; [done|]. simpl in *.
    apply andb_true_iff in Hall as [-> _]. done.
Qed.

Lemma whitespace_single c rest :
  is_space c = true -> c <> 32%Z ->
  starts_with (fun x => negb (is_space x)) rest = true ->
  head (matches (Part4.categories is_L is_N is_space) (c :: rest)) = Some rest.
Proof.
  intros Hc H32 Hrest.
  assert (Hrest' : plus_class is_space rest = []).
  { apply plus_class_none. destruct rest as [|d rest']; [done|]. simpl in *.
    by apply negb_true_iff. }
  rewrite whitespace_alternatives; [|done..].
  cbn [plus_class]. rewrite Hc, Hrest'. cbn [app].
  by rewrite bind_cons, matches_neglook_class, Hrest.
Qed.
End WhitespaceCuts.

(** X9: with the character classes as they are meant, whitespace before a
    word is cut so that its last character is left for what follows; a text
    that is nothing but whitespace is one chunk; and a single whitespace
    character other than the space that stands before a word is a chunk of
    its own. *)
Theorem whitespace_cut (is_L is_N is_space : Z -> bool) :
  proper_classes is_L is_N is_space ->
  (forall ws c rest,
      ws <> [] -> forallb is_space ws = true -> is_space c = true ->
      starts_with (fun x => negb (is_space x)) rest = true ->
      findall (Part4.categories is_L is_N is_space) (ws ++ c :: rest)
      = ws :: findall (Part4.categories is_L is_N is_space) (c :: rest))
  /\ (forall ws,
      ws <> [] -> forallb is_space ws = true ->
      findall (Part4.categories is_L is_N is_space) ws = [ws])
  /\ (forall c rest,
      is_space c = true -> c <> 32%Z ->
      starts_with (fun x => negb (is_space x)) rest = true ->
      findall (Part4.categories is_L is_N is_space) (c :: rest)
      = [c] :: findall (Part4.categories is_L is_N is_space) rest).
Proof.
  intros Hproper. split_and!.
  - intros ws c rest Hne Hall Hc Hrest.
    apply findall_step; [apply categories_consuming| |done].
    by apply whitespace_before_word.
  - intros ws Hne Hall.
    change [ws] with (ws :: findall (Part4.categories is_L is_N is_space) []).
    apply findall_step; [apply categories_consuming| |by rewrite app_nil_r].
    by apply whitespace_only.
  - intros c rest Hc H32 Hrest.
    apply (findall_step _ _ [c]); [apply categories_consuming| |done].
    by apply whitespace_single.
Qed.

Lemma whitespace_cut_witness :
  findall (Part4.categories ascii_L ascii_N ascii_space) (codes "  " ++ 32%Z :: codes "dog")
  = codes "  " :: findall (Part4.categories ascii_L ascii_N ascii_space) (32%Z :: codes "dog").
Proof.
  apply (proj1 (whitespace_cut ascii_L ascii_N ascii_space ascii_proper)
           (codes "  ") 32%Z (codes "dog")).
  - discriminate.
  - reflexivity.
  - reflexivity.
  - reflexivity.
Defined.

(** ** Part 2: vocabularies of words *)

Lemma insert_str_perm x l : Part2.insert_str x l ≡ₚ x :: l.
Proof.
  induction l as [|y l IH]; simpl; [done|].
  destruct (String.leb x y); [done|]. rewrite IH. apply Permutation_swap.
Qed.

Lemma sorted_str_perm l : Part2.sorted_str l ≡ₚ l.
Proof.
  induction l as [|x l IH]; simpl; [done|]. by rewrite insert_str_perm, IH.
Qed.

Lemma insert_str_sorted x l :
  Sorted (fun a b => String.leb a b = true) l ->
  Sorted (fun a b => String.leb a b = true) (Part2.insert_str x l).
Proof.
  induction 1 as [|y l Hl IH Hy]; simpl; [by repeat constructor|].
  destruct (String.leb x y) eqn:Hxy.
  - repeat constructor; done.
  - constructor; [done|].
    assert (Hyx : String.leb y x = true) by (destruct (String.leb_total x y); congruence).
    destruct l as [|z l]; simpl; [by constructor|].
    destruct (String.leb x z); constructor; [done|].
    by inversion Hy.
Qed.

Lemma sorted_str_sorted l : Sorted (fun a b => String.leb a b = true) (Part2.sorted_str l).
Proof. induction l as [|x l IH]; simpl; [constructor|by apply insert_str_sorted]. Qed.

Lemma check_tokens_ticks tokens vocab :
  Part2.check_tokens tokens vocab = replicate (length tokens) Part2.Tick
  <-> forall t, t ∈ tokens -> t ∈ vocab.
Proof.
  unfold Part2.check_tokens. induction tokens as [|t tokens IH]; simpl.
  - split; [by intros _ ? ?%elem_of_nil|done].
  - case_bool_decide as Ht; split.
    + intros [= Heq]. intros t' [->|Ht']%elem_of_cons; [done|]. by apply IH.
    + intros Hall. f_equal. apply IH. intros t' Ht'. apply Hall. by right.
    + done.
    + intros Hall. exfalso. apply Ht, Hall. left.
Qed.

(** X10: the vocabulary built from a list of tokens has exactly the tokens
    of the list, each once, in ascending order; [check_tokens] prints a
    cross, with the token, exactly for the tokens that are not in the
    vocabulary it is given, so a text checked against the vocabulary built
    from it shows only ticks. *)
Theorem vocab_covers_its_text (par_tokens : list string) :
  (forall t, t ∈ Part2.vocab par_tokens <-> t ∈ par_tokens)
  /\ NoDup (Part2.vocab par_tokens)
  /\ Sorted (fun a b => String.leb a b = true) (Part2.vocab par_tokens)
  /\ Part2.check_tokens par_tokens (Part2.vocab par_tokens)
     = replicate (length par_tokens) Part2.Tick
  /\ (forall tokens vocab t,
        Part2.Cross t ∈ Part2.check_tokens tokens vocab <-> t ∈ tokens /\ t ∉ vocab)
  /\ (forall tokens vocab,
        length (Part2.check_tokens tokens vocab) = length tokens).
Proof.
  assert (Hmem : forall t, t ∈ Part2.vocab par_tokens <-> t ∈ par_tokens).
  { intros t. unfold Part2.vocab. by rewrite sorted_str_perm, elem_of_remove_dups. }
  split_and!.
  - done.
  - unfold Part2.vocab. rewrite sorted_str_perm. apply NoDup_remove_dups.
  - apply sorted_str_sorted.
  - apply check_tokens_ticks. intros t. apply Hmem.
  - intros tokens vocab t. unfold Part2.check_tokens. split.
    + intros (t' & Heq & Ht')%list_elem_of_In%in_map_iff.
      apply list_elem_of_In in Ht'. case_bool_decide; [done|]. by injection Heq as ->.
    + intros [Ht Hv]. apply list_elem_of_In, in_map_iff. exists t.
      rewrite bool_decide_eq_false_2 by done. split; [done|by apply list_elem_of_In].
  - intros tokens vocab. apply length_map.
Qed.

Lemma dict_item_lookup {V} (d : list (string * V)) k :
  k ∈ d.*1 -> exists v, Part2.dict_item d k = Some v /\ (k, v) ∈ d.
Proof.
  induction d as [|[k' v'] d IH]; csimpl; [by intros ?%elem_of_nil|].
  destruct (decide (k' = k)) as [->|Hne].
  - intros _. exists v'. split; [done|left].
  - intros [->|Hk]%elem_of_cons; [done|].
    destruct (IH Hk) as (v & Hv & Hin). exists v. split; [done|by right].
Qed.

Lemma tokens_freq_spec (freq : list (string * nat)) : forall keys,
  NoDup freq.*1 ->
  (forall k, k ∈ keys -> k ∈ freq.*1) ->
  exists kept, Part2.tokens_freq freq keys = Some kept
               /\ forall t, t ∈ kept <-> t ∈ keys /\ 1 < dict_get freq t 0.
Proof.
  intros keys Hnd. induction keys as [|k keys IH]; intros Hkeys.
  - exists []. split; [done|]. intros t. rewrite !elem_of_nil. tauto.
  - destruct IH as (kept & Hkept & Hspec); [intros; apply Hkeys; by right|].
    destruct (dict_item_lookup freq k (Hkeys k ltac:(left))) as (n & Hn & Hin).
    cbn [Part2.tokens_freq]. rewrite Hn, Hkept. csimpl.
    pose proof (dict_get_lookup freq k n Hnd Hin) as Hget.
    eexists. split; [done|]. intros t.
    destruct (Nat.ltb_spec 1 n).
    + rewrite !elem_of_cons, Hspec. split.
      * intros [->|[? ?]]; [split; [by left|lia]|split; [by right|done]].
      * intros [[->|?] ?]; [by left|by right].
    + rewrite elem_of_cons, Hspec. split.
      * intros [? ?]. split; [by right|done].
      * intros [[->|?] ?]; [lia|done].
Qed.

(** X11: the vocabulary of frequent tokens is always built (no [KeyError]),
    and holds exactly the tokens that occur more than once in the text, each
    once and in ascending order; it is part of the full vocabulary. *)
Theorem vocab_freq_repeated (par_tokens : list string) :
  exists v, Part2.vocab_freq par_tokens = Some v
            /\ (forall t, t ∈ v <-> 1 < occurrences t par_tokens)
            /\ NoDup v
            /\ Sorted (fun a b => String.leb a b = true) v
            /\ (forall t, t ∈ v -> t ∈ Part2.vocab par_tokens).
Proof.
  unfold Part2.vocab_freq, Part2.t_freq.
  pose proof (count_into_NoDup par_tokens [] (NoDup_nil_2)) as Hnd.
  destruct (tokens_freq_spec (count_into [] par_tokens) (count_into [] par_tokens).*1 Hnd)
    as (kept & -> & Hkept); [done|].
  csimpl. eexists. split; [done|].
  assert (Hmem : forall t, t ∈ Part2.sorted_str (remove_dups kept)
                           <-> 1 < occurrences t par_tokens).
  { intros t. rewrite sorted_str_perm, elem_of_remove_dups, Hkept, count_into_get.
    simpl. rewrite count_into_keys_elem. split; [tauto|].
    intros Hocc. split; [|done]. right. apply occurrences_pos. lia. }
  split_and!.
  - done.
  - rewrite sorted_str_perm. apply NoDup_remove_dups.
  - apply sorted_str_sorted.
  - intros t Ht%Hmem. unfold Part2.vocab.
    rewrite sorted_str_perm, elem_of_remove_dups. apply occurrences_pos. lia.
Qed.

(** X12: replacing the tokens outside a vocabulary by [<|unk|>] keeps the
    number of tokens and the tokens of the vocabulary in their places, leaves
    only tokens of the vocabulary and [<|unk|>], changes nothing when done a
    second time, and the result passes [check_tokens] for the vocabulary with
    [<|unk|>] added. *)
Theorem mark_unknown_closes (vocab tokens : list string) :
  length (Part2.mark_unknown vocab tokens) = length tokens
  /\ (forall i t, tokens !! i = Some t -> t ∈ vocab ->
                  Part2.mark_unknown vocab tokens !! i = Some t)
  /\ (forall t, t ∈ Part2.mark_unknown vocab tokens -> t ∈ vocab \/ t = Part2.unk)
  /\ Part2.mark_unknown vocab (Part2.mark_unknown vocab tokens)
     = Part2.mark_unknown vocab tokens
  /\ Part2.check_tokens (Part2.mark_unknown vocab tokens) (vocab ++ [Part2.unk])
     = replicate (length tokens) Part2.Tick.
Proof.
  assert (Hin : forall t, t ∈ Part2.mark_unknown vocab tokens -> t ∈ vocab \/ t = Part2.unk).
  { unfold Part2.mark_unknown. intros t (t' & <- & Ht')%list_elem_of_In%in_map_iff.
    case_bool_decide; [by left|by right]. }
  split_and!.
  - apply length_map.
  - intros i t Hi Ht. unfold Part2.mark_unknown.
    change (map ?f ?l) with (f <$> l). rewrite list_lookup_fmap, Hi. simpl.
    by rewrite bool_decide_eq_true_2.
  - done.
  - unfold Part2.mark_unknown. rewrite map_map. apply map_ext. intros t.
    cbv beta. destruct (decide (t ∈ vocab)) as [Ht|Ht].
    + by rewrite !(bool_decide_eq_true_2 (t ∈ vocab)).
    + rewrite (bool_decide_eq_false_2 (t ∈ vocab)) by done.
      by destruct (bool_decide (Part2.unk ∈ vocab)).
  - rewrite <- (length_map (fun token => if bool_decide (token ∈ vocab) then token
                                        else Part2.unk) tokens).
    apply check_tokens_ticks. intros t [Ht| ->]%Hin; apply elem_of_app; [by left|].
    right. left.
Qed.


(** ** The cells of Part 3 *)

Lemma insert_asc_perm x l : insert_asc x l ≡ₚ x :: l.
Proof.
  induction l as [|y l IH]; simpl; [done|].
  destruct (x <? y)%Z; [done|]. rewrite IH. apply Permutation_swap.
Qed.

Lemma insert_asc_sorted x l :
  x ∉ l -> StronglySorted Z.lt l -> StronglySorted Z.lt (insert_asc x l).
Proof.
  intros Hx Hl. induction Hl as [|y l Hl IH Hy]; simpl; [by repeat constructor|].
  apply not_elem_of_cons in Hx as [Hxy Hx].
  destruct (Z.ltb_spec x y).
  - constructor; [by constructor|]. constructor; [done|].
    eapply Forall_impl; [done|]. simpl. lia.
  - constructor; [by apply IH|]. rewrite insert_asc_perm. constructor; [lia|done].
Qed.

Lemma sorted_set_spec l :
  (forall t, t ∈ sorted_set l <-> t ∈ l) /\ StronglySorted Z.lt (sorted_set l).
Proof.
  unfold sorted_set.
  assert (Hgen : forall k, NoDup k ->
            (forall t, t ∈ foldr insert_asc [] k <-> t ∈ k)
            /\ StronglySorted Z.lt (foldr insert_asc [] k)).
  { induction 1 as [|x k Hx Hk [IH1 IH2]]; simpl; [split; [done|constructor]|]. split.
    - intros t. rewrite insert_asc_perm, !elem_of_cons, IH1. done.
    - apply insert_asc_sorted; [by rewrite IH1|done]. }
  destruct (Hgen (remove_dups l) (NoDup_remove_dups l)) as [H1 H2].
  split; [|done]. intros t. by rewrite H1, elem_of_remove_dups.
Qed.

(** X13: the list of tokens of the first cell holds the symbols of the
    text, once each and in ascending order, and a merge cell whose new
    symbol is greater than all tokens keeps it so while adding the new
    symbol. *)
Theorem tokens_stay_sorted (text : list Z) (pair : Z * Z) (idx : Z) (st : Part3.state) :
  Forall (fun t => (t < idx)%Z) (Part3.tokens st) ->
  StronglySorted Z.lt (Part3.tokens st) ->
  ((forall t, t ∈ Part3.tokens (Part3.init text) <-> t ∈ text)
   /\ StronglySorted Z.lt (Part3.tokens (Part3.init text)))
  /\ exists st', Part3.merge st pair idx = Done st'
       /\ StronglySorted Z.lt (Part3.tokens st')
       /\ NoDup (Part3.tokens st')
       /\ forall t, t ∈ Part3.tokens st' <-> t ∈ Part3.tokens st \/ t = idx.
Proof.
  intros Hlt Hsorted. split; [apply sorted_set_spec|].
  unfold Part3.merge. rewrite Part3_replace_pairs_eq. eexists. split; [done|].
  cbn [Part3.tokens].
  assert (Hs : StronglySorted Z.lt (Part3.tokens st ++ [idx])).
  { apply StronglySorted_app_2; [|done|by repeat constructor].
    intros x y Hx ->%list_elem_of_singleton. rewrite Forall_forall in Hlt. by apply Hlt. }
  split_and!; [done| |].
  - clear -Hs. induction Hs as [|x l Hl IH Hx]; constructor; [|done].
    intros Hin. rewrite Forall_forall in Hx. apply Hx in Hin. lia.
  - intros t. by rewrite elem_of_app, list_elem_of_singleton.
Qed.

Lemma tokens_stay_sorted_witness :
  exists st', Part3.merge (Part3.init [240; 159; 240; 159; 32]%Z) (240, 159)%Z 256%Z = Done st'
       /\ StronglySorted Z.lt (Part3.tokens st')
       /\ NoDup (Part3.tokens st')
       /\ forall t, t ∈ Part3.tokens st'
                    <-> t ∈ Part3.tokens (Part3.init [240; 159; 240; 159; 32]%Z) \/ t = 256%Z.
Proof.
  apply (proj2 (tokens_stay_sorted [240; 159; 240; 159; 32]%Z (240, 159)%Z 256%Z
                  (Part3.init [240; 159; 240; 159; 32]%Z)
                  ltac:(vm_compute; repeat constructor)
                  (proj2 (sorted_set_spec [240; 159; 240; 159; 32]%Z)))).
Defined.

Lemma dict_set_keys_any {K V} `{EqDecision K} (st : list (K * V)) k v :
  (dict_set st k v).*1 = st.*1 ++ (if bool_decide (k ∈ st.*1) then [] else [k]).
Proof.
  induction st as [|[k0 v0] st IH]; csimpl; [done|].
  destruct (decide (k0 = k)) as [->|Hne]; csimpl.
  - rewrite bool_decide_eq_true_2 by left. by rewrite app_nil_r.
  - rewrite IH. f_equal.
    rewrite (bool_decide_ext (k ∈ k0 :: st.*1) (k ∈ st.*1)); [done|].
    rewrite elem_of_cons. split; [intros [->|?]; done|by right].
Qed.

(** X14: a merge cell records the new symbol under the pair and leaves the
    entries of all other pairs as they were; the pairs recorded before keep
    their order, and a pair not recorded before is added last, so that the
    order of the dictionary is the order of the merges. *)
Theorem merges_keep_order (st : Part3.state) (pair : Z * Z) (idx : Z) :
  exists st', Part3.merge st pair idx = Done st'
    /\ dict_get (Part3.merges st') pair 0%Z = idx
    /\ (forall q, dict_get (Part3.merges st') q 0%Z
                  = if decide (pair = q) then idx else dict_get (Part3.merges st) q 0%Z)
    /\ (Part3.merges st').*1
       = (Part3.merges st).*1
         ++ (if bool_decide (pair ∈ (Part3.merges st).*1) then [] else [pair]).
Proof.
  unfold Part3.merge. rewrite Part3_replace_pairs_eq. eexists. split; [done|].
  cbn [Part3.merges]. split_and!.
  - rewrite dict_get_set. by rewrite decide_True.
  - intros q. apply dict_get_set.
  - apply dict_set_keys_any.
Qed.
